(** * OpenCAMlib cutter-location surface: half-edge mesh and quad subdivision

    A shallow embedding of [src/algo/clsurface.hpp].

    - [double] coordinates are modelled as exact rationals [Q]; rounding,
      overflow and NaNs are not modelled.
    - Vertex and edge descriptors of the boost graph are modelled as natural
      numbers; descriptors are never reused.
    - [unsigned int] face ids are natural numbers (vector indices).
    - The process-wide [static int VertexProps::count] is an explicit component
      of the [World] the methods run in.  It is an unbounded integer here:
      overflow of a C++ [int] is undefined behaviour and is not modelled.
    - What [subdivide_face] prints to [std::cout] is not modelled.
    - [halfedgediagram.hpp] and [point.hpp] are not part of the available
      sources; the operations of [hedi::HEDIGraph] used by [clsurface.hpp] are
      modelled from the specification (section 4.1) and marked as such. *)

From Stdlib Require Import ZArith QArith Lia.
From stdpp Require Import base option list relations gmap.

Set Default Proof Using "Type".

(** ** Points *)

(** Modelled from the spec: [point.hpp] is missing.  A vertex carries a
    "3D position (x, y, z as floating point)"; a default-constructed [Point]
    is the origin, which [subdivide_face] relies on when it accumulates the
    center with [+=] on a freshly added vertex. *)
Record Point : Type := mkPoint { px : Q; py : Q; pz : Q }.

Definition Point_origin : Point := mkPoint 0 0 0.

(** [p + q] *)
Definition Point_add (p q : Point) : Point :=
  mkPoint (px p + px q) (py p + py q) (pz p + pz q).

(** [a * p] *)
Definition Point_scale (a : Q) (p : Point) : Point :=
  mkPoint (a * px p) (a * py p) (a * pz p).

(** Equality of points as rational triples. *)
Definition Point_eq (p q : Point) : Prop :=
  (px p == px q)%Q ∧ (py p == py q)%Q ∧ (pz p == pz q)%Q.

(** Squared euclidean distance (no square roots are needed to compare
    lengths). *)
Definition dist2 (p q : Point) : Q :=
  ((px p - px q) * (px p - px q) + (py p - py q) * (py p - py q)
   + (pz p - pz q) * (pz p - pz q))%Q.

(** ** Graph data *)

(** [typedef]s of the descriptor types. *)
Abbreviation Vertex := nat (only parsing).
Abbreviation Edge := nat (only parsing).
Abbreviation Face := nat (only parsing).

(** [struct VertexProps]: [index] is assigned from the global [count]. *)
Record VertexProps : Type := mkVertexProps { position : Point; index : Z }.

(** [void VertexProps::init()]: [index = count; count++] on the global
    counter.  Returns the initialised properties and the new counter.

    [index] and [count] are [int]s; they are modelled as unbounded integers.
    The model is the program as long as [count++] does not overflow, which is
    undefined behaviour in C++ (and wraps to [INT_MIN] on the usual targets).
    What is proved about the values of indices and of the counter therefore
    assumes [counter_in_range]. *)
Definition VertexProps_init (p : Point) (count : Z) : VertexProps * Z :=
  (mkVertexProps p count, (count + 1)%Z).

(** The range of [int]. *)
Definition INT_MIN : Z := -2147483648.
Definition INT_MAX : Z := 2147483647.

(** A counter that stands at [c] is an [int], and [n] executions of
    [count++] from there do not overflow. *)
Definition counter_in_range (c n : Z) : Prop :=
  (INT_MIN ≤ c ∧ c + n ≤ INT_MAX)%Z.

(** [VertexProps()] *)
Definition VertexProps_default (count : Z) : VertexProps * Z :=
  VertexProps_init Point_origin count.

(** [VertexProps(Point p)] *)
Definition VertexProps_at (p : Point) (count : Z) : VertexProps * Z :=
  VertexProps_init p count.

(** [struct EdgeProps]: the default constructor leaves all three members
    unset, which is [None] here. *)
Record EdgeProps : Type :=
  mkEdgeProps { next : option Edge; twin : option Edge; face : option Face }.

Definition EdgeProps_default : EdgeProps := mkEdgeProps None None None.

(** [struct FaceProps] *)
Record FaceProps : Type := mkFaceProps { idx : Face; edge : option Edge }.

(** An edge of the boost graph: its two endpoints and its bundled
    properties. *)
Record HalfEdge : Type :=
  mkHalfEdge { he_source : Vertex; he_target : Vertex; he_props : EdgeProps }.

Definition he_next (h : HalfEdge) : option Edge := next (he_props h).
Definition he_twin (h : HalfEdge) : option Edge := twin (he_props h).
Definition he_face (h : HalfEdge) : option Face := face (he_props h).

Definition set_next (n : Edge) (h : HalfEdge) : HalfEdge :=
  mkHalfEdge (he_source h) (he_target h)
    (mkEdgeProps (Some n) (he_twin h) (he_face h)).
Definition set_twin (t : Edge) (h : HalfEdge) : HalfEdge :=
  mkHalfEdge (he_source h) (he_target h)
    (mkEdgeProps (he_next h) (Some t) (he_face h)).
Definition set_face (f : Face) (h : HalfEdge) : HalfEdge :=
  mkHalfEdge (he_source h) (he_target h)
    (mkEdgeProps (he_next h) (he_twin h) (Some f)).

(** Modelled from the spec: the class [hedi::HEDIGraph] that [CLSGraph]
    instantiates is missing.  It is "a generic topological container for
    vertices, directed half-edges, and faces", kept here as the spec's design
    notes put it, "entries in separate arenas, with all relations stored as
    plain indices": the vertices in insertion order (a vertex descriptor is
    its position in that list), the live edges by descriptor together with
    the next unused edge descriptor, and the face table (a face id is its
    position). *)
Record CLSGraph : Type := mkGraph {
  vertices : list VertexProps;
  edges : gmap Edge HalfEdge;
  edge_counter : Edge;
  faces : list FaceProps
}.

Definition empty_graph : CLSGraph := mkGraph [] ∅ 0 [].

(** ** Errors and the state monad of the methods *)

Inductive error : Set :=
| UnknownEntity     (* a stale or nonexistent vertex, edge or face id *)
| MalformedMesh     (* a relation that should be wired is not *)
| CycleOpen         (* a [next] cycle does not close *)
| AssertionFailed   (* an [assert] of the source fails *)
| OutOfFuel.        (* the unrolling of a loop of the model was too short *)

Inductive result (A : Type) : Type :=
| Ok (a : A)
| Err (e : error).
Arguments Ok {A} a.
Arguments Err {A} e.

Definition M (S A : Type) : Type := S → result (A * S).

Definition ret {S A} (a : A) : M S A := λ s, Ok (a, s).
Definition bind {S A B} (m : M S A) (k : A → M S B) : M S B :=
  λ s, match m s with
       | Ok (a, s') => k a s'
       | Err e => Err e
       end.
Definition fail {S A} (e : error) : M S A := λ _, Err e.
Definition gets {S A} (f : S → A) : M S A := λ s, Ok (f s, s).
Definition modify {S} (f : S → S) : M S unit := λ s, Ok (tt, f s).
Definition from_option {S A} (e : error) (o : option A) : M S A :=
  match o with Some a => ret a | None => fail e end.
(** [assert(b)] *)
Definition cassert {S} (b : bool) : M S unit :=
  if b then ret tt else fail AssertionFailed.

Notation "'let*' x ':=' m 'in' k" := (bind m (λ x, k))
  (at level 10, x pattern, m at level 100, k at level 200, only parsing).

(** [BOOST_FOREACH(x, l) body] *)
Fixpoint foreach {S A} (l : list A) (body : A → M S unit) : M S unit :=
  match l with
  | [] => ret tt
  | a :: l' => let* _ := body a in foreach l' body
  end.

(** ** The half-edge graph operations *)

(** Modelled from the spec: the size accessors of [HEDIGraph] are missing.
    "numVertices(), numEdges(), numFaces(): size accessors." *)
Definition num_vertices (g : CLSGraph) : nat := length (vertices g).
Definition num_edges (g : CLSGraph) : nat := size (edges g).
Definition num_faces (g : CLSGraph) : nat := length (faces g).

Definition with_vertices (vs : list VertexProps) (g : CLSGraph) : CLSGraph :=
  mkGraph vs (edges g) (edge_counter g) (faces g).
Definition with_edges (es : gmap Edge HalfEdge) (g : CLSGraph) : CLSGraph :=
  mkGraph (vertices g) es (edge_counter g) (faces g).
Definition with_faces (fs : list FaceProps) (g : CLSGraph) : CLSGraph :=
  mkGraph (vertices g) (edges g) (edge_counter g) fs.

(** Modelled from the spec: [HEDIGraph::operator[]] is missing.  [g[v]] for a
    vertex, [g[e]] for an edge, [g[f]] for a face give the bundled properties;
    an "operation given a stale/nonexistent vertex, edge, or face id" is an
    "unknown entity reference", "surfaced immediately". *)
Definition get_vertex (v : Vertex) : M CLSGraph VertexProps :=
  let* o := gets (λ g, vertices g !! v) in from_option UnknownEntity o.
Definition get_edge (e : Edge) : M CLSGraph HalfEdge :=
  let* o := gets (λ g, edges g !! e) in from_option UnknownEntity o.
Definition get_face (f : Face) : M CLSGraph FaceProps :=
  let* o := gets (λ g, faces g !! f) in from_option UnknownEntity o.

(** Modelled from the spec: [HEDIGraph::source] and [HEDIGraph::target] are
    missing.  A half-edge is a "directed arc between two vertices"; these
    give its two endpoints. *)
Definition source (e : Edge) : M CLSGraph Vertex :=
  let* h := get_edge e in ret (he_source h).
Definition target (e : Edge) : M CLSGraph Vertex :=
  let* h := get_edge e in ret (he_target h).

(** [g[v].position = p], an assignment through [operator[]]. *)
Definition set_position (v : Vertex) (p : Point) : M CLSGraph unit :=
  let* vp := get_vertex v in
  modify (λ g, with_vertices (<[v := mkVertexProps p (index vp)]> (vertices g)) g).

(** [g[e].next = n] and [g[e].face = f], assignments through [operator[]]. *)
Definition set_edge_next (e n : Edge) : M CLSGraph unit :=
  let* _ := get_edge e in
  modify (λ g, with_edges (alter (set_next n) e (edges g)) g).
Definition set_edge_face (e : Edge) (f : Face) : M CLSGraph unit :=
  let* _ := get_edge e in
  modify (λ g, with_edges (alter (set_face f) e (edges g)) g).

(** [g[f].edge = e], an assignment through [operator[]]. *)
Definition set_face_edge (f : Face) (e : Edge) : M CLSGraph unit :=
  let* fp := get_face f in
  modify (λ g, with_faces (<[f := mkFaceProps (idx fp) (Some e)]> (faces g)) g).

(** Modelled from the spec: [HEDIGraph::add_vertex] is missing.
    "addVertex(position) -> VertexId: creates a vertex with the given
    position, assigns it the next global index.  No failure mode."  This is
    the container part: append a vertex with the given bundled properties and
    return its descriptor; the index is drawn by the constructor of
    [VertexProps], see [add_vertex] below. *)
Definition push_vertex (vp : VertexProps) : M CLSGraph Vertex :=
  let* v := gets num_vertices in
  let* _ := modify (λ g, with_vertices (vertices g ++ [vp]) g) in
  ret v.

(** Modelled from the spec: [HEDIGraph::add_face] is missing.
    "addFace(representativeEdge?) -> FaceId: creates a face, optionally bound
    to a representative half-edge."  The id is the position in the face
    table, which is what the loop of [subdivide] iterates over. *)
Definition add_face : M CLSGraph Face :=
  let* f := gets num_faces in
  let* _ := modify (λ g, with_faces (faces g ++ [mkFaceProps f None]) g) in
  ret f.

(** Modelled from the spec: [HEDIGraph::add_edge] is missing.
    "addEdge(source, target) -> EdgeId: creates one directed half-edge; does
    not by itself establish twin, next, or face.  Fails if either endpoint id
    is unknown." *)
Definition add_edge (s t : Vertex) : M CLSGraph Edge :=
  let* _ := get_vertex s in
  let* _ := get_vertex t in
  let* e := gets edge_counter in
  let* _ := modify (λ g,
    mkGraph (vertices g) (<[e := mkHalfEdge s t EdgeProps_default]> (edges g))
            (S e) (faces g)) in
  ret e.

(** Modelled from the spec: [HEDIGraph::twin_edges] is missing.
    "setTwin(e1, e2): declares e1 and e2 as mutual twins; sets both
    directions.  Fails if e1 or e2 already has a different twin assigned
    (idempotence: re-assigning the same pair is a no-op)." *)
Definition twin_free (h : HalfEdge) (t : Edge) : bool :=
  match he_twin h with
  | None => true
  | Some t' => bool_decide (t' = t)
  end.

Definition twin_edges (e1 e2 : Edge) : M CLSGraph unit :=
  let* h1 := get_edge e1 in
  let* h2 := get_edge e2 in
  if twin_free h1 e2 && twin_free h2 e1 then
    modify (λ g,
      with_edges (alter (set_twin e1) e2 (alter (set_twin e2) e1 (edges g))) g)
  else fail MalformedMesh.

(** Modelled from the spec: [HEDIGraph::face_edges] is missing.
    "faceBoundary(face) -> ordered sequence of EdgeId: follows next starting
    at the face's representative edge until it recurs; fails if the cycle does
    not close within a bounded number of steps."  The bound is the number of
    live edges. *)
Fixpoint walk_next (es : gmap Edge HalfEdge) (start cur : Edge) (fuel : nat)
    : result (list Edge) :=
  match fuel with
  | 0 => Err CycleOpen
  | S fuel' =>
      match es !! cur with
      | None => Err UnknownEntity
      | Some h =>
          match he_next h with
          | None => Err MalformedMesh
          | Some n =>
              if bool_decide (n = start) then Ok [cur]
              else match walk_next es start n fuel' with
                   | Ok l => Ok (cur :: l)
                   | Err e => Err e
                   end
          end
      end
  end.

Definition face_edges (f : Face) : M CLSGraph (list Edge) :=
  let* fp := get_face f in
  let* e0 := from_option MalformedMesh (edge fp) in
  λ g, match walk_next (edges g) e0 e0 (num_edges g) with
       | Ok l => Ok (l, g)
       | Err e => Err e
       end.

(** Modelled from the spec: the search for "the predecessor" that
    [insertVertexInEdge] rewires is missing.  It is the half-edge whose [next]
    is [e]: the last edge of the walk that starts at [e]. *)
Definition previous_edge (e : Edge) : M CLSGraph Edge :=
  λ g, match walk_next (edges g) e e (num_edges g) with
       | Ok l => Ok (List.last l e, g)
       | Err er => Err er
       end.

(** Modelled from the spec: [HEDIGraph::insert_vertex_in_edge] is missing.
    "splits edge (source→target) into two half-edges (source→new,
    new→target), and must also split edge's twin symmetrically.  The new
    half-edges inherit the original face assignment of their respective
    parent.  [...] update, in one atomic step, (a) the predecessor's next to
    point at the first new half-edge, (b) the new half-edges' mutual next
    chain, (c) the twin linkage on both replaced edges, and (d) face boundary
    length bookkeeping.  Fails if edge has no assigned twin (malformed mesh) or
    unknown endpoints."  As the caller's comment says, "this also removes the
    old edges".  A face whose representative was a removed half-edge is
    re-pointed at the first half-edge that replaces it.

<<
        previous -> source --e1--> v --e2--> target -> next
                    tw_trg <-te2-- v <-te1-- tw_src <- twin_previous
>> *)
Definition repoint (old new : Edge) (fp : FaceProps) : FaceProps :=
  if bool_decide (edge fp = Some old) then mkFaceProps (idx fp) (Some new)
  else fp.

Definition splice (v : Vertex) (e t previous twin_previous : Edge)
    (h ht : HalfEdge) (gr : CLSGraph) : CLSGraph :=
  let n := edge_counter gr in
  let e1 := n in
  let e2 := S n in
  let te1 := S (S n) in
  let te2 := S (S (S n)) in
  let h1 := mkHalfEdge (he_source h) v
              (mkEdgeProps (Some e2) (Some te2) (he_face h)) in
  let h2 := mkHalfEdge v (he_target h)
              (mkEdgeProps (he_next h) (Some te1) (he_face h)) in
  let ht1 := mkHalfEdge (he_source ht) v
               (mkEdgeProps (Some te2) (Some e2) (he_face ht)) in
  let ht2 := mkHalfEdge v (he_target ht)
               (mkEdgeProps (he_next ht) (Some e1) (he_face ht)) in
  let es1 :=
    <[te2 := ht2]> (<[te1 := ht1]> (<[e2 := h2]> (<[e1 := h1]> (edges gr)))) in
  let es2 :=
    alter (set_next te1) twin_previous (alter (set_next e1) previous es1) in
  let es3 := delete t (delete e es2) in
  mkGraph (vertices gr) es3 (S (S (S (S n))))
          (repoint t te1 <$> (repoint e e1 <$> faces gr)).

Definition insert_vertex_in_edge (v : Vertex) (e : Edge) : M CLSGraph unit :=
  let* _ := get_vertex v in
  let* h := get_edge e in
  let* t := from_option MalformedMesh (he_twin h) in
  let* ht := get_edge t in
  let* _ := get_vertex (he_source h) in
  let* _ := get_vertex (he_target h) in
  let* previous := previous_edge e in
  let* twin_previous := previous_edge t in
  modify (splice v e t previous twin_previous h ht).

(** ** The cutter-location surface *)

(** [class CutterLocationSurface]: the data members.  The constructors leave
    [min_sampling] uninitialised, and [out_face] until [init] assigns it. *)
Record CutterLocationSurface : Type := mkCLS {
  g : CLSGraph;
  min_sampling : option Q;
  far : Q;
  out_face : option Face
}.

(** What a method call can read and write: the program-wide
    [VertexProps::count] and the object it is called on. *)
Record World : Type := mkWorld { count : Z; this : CutterLocationSurface }.

Definition with_g (g' : CLSGraph) (w : World) : World :=
  mkWorld (count w)
    (mkCLS g' (min_sampling (this w)) (far (this w)) (out_face (this w))).

(** Run a graph operation on the member [g]. *)
Definition on_g {A} (m : M CLSGraph A) : M World A :=
  λ w, match m (g (this w)) with
       | Ok (a, g') => Ok (a, with_g g' w)
       | Err e => Err e
       end.

(** [g.add_vertex()], as [clsurface.hpp] calls it without arguments: the
    bundled [VertexProps] is default-constructed, which draws the index from
    the global counter, and is then appended to the graph. *)
Definition add_vertex : M World Vertex :=
  let* c := gets count in
  let '(vp, c') := VertexProps_default c in
  let* _ := modify (λ w, mkWorld c' (this w)) in
  on_g (push_vertex vp).

(** [g[center].position += d] *)
Definition add_to_position (v : Vertex) (d : Point) : M CLSGraph unit :=
  let* vp := get_vertex v in
  set_position v (Point_add (position vp) d).

(** The body of the first loop of [subdivide_face]. *)
Definition split_edge (center : Vertex) (e : Edge) : M World unit :=
  let* src := on_g (source e) in
  let* trg := on_g (target e) in
  let* psrc := on_g (get_vertex src) in
  let* ptrg := on_g (get_vertex trg) in
  let mid := Point_scale (1 # 2) (Point_add (position psrc) (position ptrg)) in
  let* _ := on_g (add_to_position center (Point_scale (1 # 4) (position psrc))) in
  let* v := add_vertex in
  let* _ := on_g (set_position v mid) in
  on_g (insert_vertex_in_edge v e).

(** [void subdivide_face(Face f)].  The second loop only prints the edge
    descriptors and changes nothing. *)
Definition subdivide_face (f : Face) : M World unit :=
  let* f_edges := on_g (face_edges f) in
  let* _ := cassert (bool_decide (length f_edges = 4)) in
  let* center := add_vertex in
  let* _ := foreach f_edges (split_edge center) in
  let* f_edges' := on_g (face_edges f) in
  let* _ := cassert (bool_decide (length f_edges' = 8)) in
  foreach f_edges' (λ _, ret tt).

(** [void subdivide()]: one sweep [for (Face f = 0; f < g.num_faces(); ++f)]
    over the face table; the bound is read again before every iteration.  The
    loop is unrolled with a fuel, which [subdivide] sets to the number of faces
    at entry; [subdivide_fuel_suffices] shows that it never runs out. *)
Fixpoint subdivide_from (f : Face) (fuel : nat) : M World unit :=
  let* n := on_g (gets num_faces) in
  if bool_decide (f < n) then
    match fuel with
    | 0 => fail OutOfFuel
    | S fuel' =>
        let* o := gets (λ w, out_face (this w)) in
        let* _ := (if bool_decide (Some f ≠ o) then subdivide_face f
                   else ret tt) in
        subdivide_from (S f) fuel'
    end
  else ret tt.

Definition subdivide : M World unit :=
  let* n := on_g (gets num_faces) in
  subdivide_from 0 n.

(** [out_face = f] *)
Definition set_out_face (f : Face) : M World unit :=
  modify (λ w, mkWorld (count w)
    (mkCLS (g (this w)) (min_sampling (this w)) (far (this w)) (Some f))).

(** The first part of [void init()], lines 160-206: the bounding square.
<<
        b  e1   a
        e2      e4
        c   e3  d
>>
    The position of [d] is never assigned: the fourth assignment writes
    [g[c].position] a second time.  The two face ids are returned for
    reference. *)
Definition init_square : M World (Face * Face) :=
  let* far_ := gets (λ w, far (this w)) in
  let* a := add_vertex in
  let* _ := on_g (set_position a (mkPoint far_ far_ 0)) in
  let* b := add_vertex in
  let* _ := on_g (set_position b (mkPoint (- far_) far_ 0)) in
  let* c := add_vertex in
  let* _ := on_g (set_position c (mkPoint (- far_) (- far_) 0)) in
  let* d := add_vertex in
  let* _ := on_g (set_position c (mkPoint far_ (- far_) 0)) in
  let* f_outer := on_g add_face in
  let* f_inner := on_g add_face in
  let* e1 := on_g (add_edge a b) in
  let* e1t := on_g (add_edge b a) in
  let* e2 := on_g (add_edge b c) in
  let* e2t := on_g (add_edge c b) in
  let* e3 := on_g (add_edge c d) in
  let* e3t := on_g (add_edge d c) in
  let* e4 := on_g (add_edge d a) in
  let* e4t := on_g (add_edge a d) in
  let* _ := on_g (set_face_edge f_inner e1) in
  let* _ := on_g (set_face_edge f_outer e1t) in
  let* _ := set_out_face f_outer in
  (* twin edges *)
  let* _ := on_g (twin_edges e1 e1t) in
  let* _ := on_g (twin_edges e2 e2t) in
  let* _ := on_g (twin_edges e3 e3t) in
  let* _ := on_g (twin_edges e4 e4t) in
  (* inner face *)
  let* _ := on_g (set_edge_face e1 f_inner) in
  let* _ := on_g (set_edge_face e2 f_inner) in
  let* _ := on_g (set_edge_face e3 f_inner) in
  let* _ := on_g (set_edge_face e4 f_inner) in
  (* outer face *)
  let* _ := on_g (set_edge_face e1t f_outer) in
  let* _ := on_g (set_edge_face e2t f_outer) in
  let* _ := on_g (set_edge_face e3t f_outer) in
  let* _ := on_g (set_edge_face e4t f_outer) in
  (* next-pointers *)
  let* _ := on_g (set_edge_next e1 e2) in
  let* _ := on_g (set_edge_next e2 e3) in
  let* _ := on_g (set_edge_next e3 e4) in
  let* _ := on_g (set_edge_next e4 e1) in
  (* outer next-pointers *)
  let* _ := on_g (set_edge_next e1t e4t) in
  let* _ := on_g (set_edge_next e4t e3t) in
  let* _ := on_g (set_edge_next e3t e2t) in
  let* _ := on_g (set_edge_next e2t e1t) in
  ret (f_outer, f_inner).

(** [void init()] *)
Definition init : M World unit :=
  let* _ := init_square in
  subdivide.

(** The statements of [init] up to and including the first [add_edge], lines
    160 to 170; returns [e1]. *)
Definition init_to_first_edge : M World Edge :=
  let* far_ := gets (λ w, far (this w)) in
  let* a := add_vertex in
  let* _ := on_g (set_position a (mkPoint far_ far_ 0)) in
  let* b := add_vertex in
  let* _ := on_g (set_position b (mkPoint (- far_) far_ 0)) in
  let* c := add_vertex in
  let* _ := on_g (set_position c (mkPoint (- far_) (- far_) 0)) in
  let* d := add_vertex in
  let* _ := on_g (set_position c (mkPoint far_ (- far_) 0)) in
  let* f_outer := on_g add_face in
  let* f_inner := on_g add_face in
  on_g (add_edge a b).

(** A freshly allocated object before the constructor body runs. *)
Definition blank (f : Q) : CutterLocationSurface :=
  mkCLS empty_graph None f None.

(** [CutterLocationSurface(double f) { far=f; init(); }], started with the
    global vertex counter at [count]. *)
Definition CutterLocationSurface_new (f : Q) (count : Z) : result World :=
  match init (mkWorld count (blank f)) with
  | Ok (_, w) => Ok w
  | Err e => Err e
  end.

(** [CutterLocationSurface() { far=1.0; init(); }] *)
Definition CutterLocationSurface_default (count : Z) : result World :=
  CutterLocationSurface_new 1 count.

(** [virtual void run() {}] *)
Definition run : M World unit := ret tt.

(** [void setMinSampling(double s) { min_sampling=s; }] *)
Definition setMinSampling (s : Q) : M World unit :=
  modify (λ w, mkWorld (count w)
    (mkCLS (g (this w)) (Some s) (far (this w)) (out_face (this w)))).

(** ** Observations on a mesh *)

(** The [index] of every vertex, in vertex order. *)
Definition vertex_indices (w : World) : list Z :=
  index <$> vertices (g (this w)).

(** The [position] of every vertex, in vertex order. *)
Definition vertex_positions (w : World) : list Point :=
  position <$> vertices (g (this w)).

(** The ids of the bounded faces: every face of the table except
    [out_face]. *)
Definition bounded_faces (w : World) : list Face :=
  filter (λ f, Some f ≠ out_face (this w)) (seq 0 (num_faces (g (this w)))).

(** The boundary of a face, when the walk closes. *)
Definition boundary (gr : CLSGraph) (f : Face) : option (list Edge) :=
  match face_edges f gr with
  | Ok (l, _) => Some l
  | Err _ => None
  end.

(** The position of the source vertex of an edge. *)
Definition source_position (gr : CLSGraph) (e : Edge) : option Point :=
  h ← edges gr !! e; vp ← vertices gr !! he_source h; Some (position vp).

(** The squared length of an edge. *)
Definition edge_length2 (gr : CLSGraph) (e : Edge) : option Q :=
  h ← edges gr !! e;
  p ← vertices gr !! he_source h;
  q ← vertices gr !! he_target h;
  Some (dist2 (position p) (position q)).

(** The half-edges that start or end at a vertex. *)
Definition touches (v : Vertex) (eh : Edge * HalfEdge) : Prop :=
  he_source eh.2 = v ∨ he_target eh.2 = v.

#[local] Instance touches_dec v eh : Decision (touches v eh).
Proof. unfold touches. apply _. Defined.

Definition incident_edges (gr : CLSGraph) (v : Vertex) : list Edge :=
  (filter (touches v) (map_to_list (edges gr))).*1.

(** ** Invariants of the half-edge graph *)

(** [twin(e)], as far as it is assigned. *)
Definition twin_of (gr : CLSGraph) (e : Edge) : option Edge :=
  edges gr !! e ≫= he_twin.

(** Twin symmetry: wherever a twin link is assigned it is mutual, that is
    [twin(twin(e)) == e]. *)
Definition twin_symmetric (gr : CLSGraph) : Prop :=
  ∀ e t, twin_of gr e = Some t → twin_of gr t = Some e.

(** Every live half-edge has a twin, and the twin of that twin is the
    half-edge itself. *)
Definition twin_total (gr : CLSGraph) : Prop :=
  map_Forall (λ e _, twin_of gr e ≫= twin_of gr = Some e) (edges gr).

(** Edge descriptors handed out so far lie below the counter. *)
Definition counter_fresh (gr : CLSGraph) : Prop :=
  map_Forall (λ e _, e < edge_counter gr) (edges gr).

(** The endpoints of every live half-edge are vertices of the graph. *)
Definition endpoints_known (gr : CLSGraph) : Prop :=
  map_Forall (λ _ h, he_source h < num_vertices gr ∧ he_target h < num_vertices gr)
             (edges gr).

(** Well-formedness of the edge table. *)
Definition mesh_wf (gr : CLSGraph) : Prop :=
  counter_fresh gr ∧ endpoints_known gr.

(** The invariant that every mutation maintains: twin symmetry, on a
    well-formed edge table. *)
Definition mesh_inv (gr : CLSGraph) : Prop :=
  twin_symmetric gr ∧ counter_fresh gr ∧ endpoints_known gr.

(** One mutation of the graph: a successful call of one of the mutating
    operations that [init] and [subdivide_face] are made of. *)
Inductive mutation : CLSGraph → CLSGraph → Prop :=
| mut_push_vertex vp gr v gr' :
    push_vertex vp gr = Ok (v, gr') → mutation gr gr'
| mut_set_position v p gr gr' :
    set_position v p gr = Ok (tt, gr') → mutation gr gr'
| mut_add_face gr f gr' :
    add_face gr = Ok (f, gr') → mutation gr gr'
| mut_add_edge s t gr e gr' :
    add_edge s t gr = Ok (e, gr') → mutation gr gr'
| mut_set_face_edge f e gr gr' :
    set_face_edge f e gr = Ok (tt, gr') → mutation gr gr'
| mut_twin_edges e1 e2 gr gr' :
    twin_edges e1 e2 gr = Ok (tt, gr') → mutation gr gr'
| mut_set_edge_face e f gr gr' :
    set_edge_face e f gr = Ok (tt, gr') → mutation gr gr'
| mut_set_edge_next e n gr gr' :
    set_edge_next e n gr = Ok (tt, gr') → mutation gr gr'
| mut_insert_vertex_in_edge v e gr gr' :
    insert_vertex_in_edge v e gr = Ok (tt, gr') → mutation gr gr'.

(** The graphs that sequences of mutations produce from the empty graph. *)
Definition reachable (gr : CLSGraph) : Prop := rtc mutation empty_graph gr.

(** The mutations other than [add_edge]: those that leave no half-edge
    without a twin that had one before. *)
Inductive linked_mutation : CLSGraph → CLSGraph → Prop :=
| lmut_push_vertex vp gr v gr' :
    push_vertex vp gr = Ok (v, gr') → linked_mutation gr gr'
| lmut_set_position v p gr gr' :
    set_position v p gr = Ok (tt, gr') → linked_mutation gr gr'
| lmut_add_face gr f gr' :
    add_face gr = Ok (f, gr') → linked_mutation gr gr'
| lmut_set_face_edge f e gr gr' :
    set_face_edge f e gr = Ok (tt, gr') → linked_mutation gr gr'
| lmut_twin_edges e1 e2 gr gr' :
    twin_edges e1 e2 gr = Ok (tt, gr') → linked_mutation gr gr'
| lmut_set_edge_face e f gr gr' :
    set_edge_face e f gr = Ok (tt, gr') → linked_mutation gr gr'
| lmut_set_edge_next e n gr gr' :
    set_edge_next e n gr = Ok (tt, gr') → linked_mutation gr gr'
| lmut_insert_vertex_in_edge v e gr gr' :
    insert_vertex_in_edge v e gr = Ok (tt, gr') → linked_mutation gr gr'.

(** The average of four points. *)
Definition average4 (p0 p1 p2 p3 : Point) : Point :=
  Point_scale (1 # 4) (Point_add (Point_add (Point_add p0 p1) p2) p3).

(** ** Notions used in the proofs *)

(** [0.25 * p] and the mid-point [0.5 * (p + q)], as [subdivide_face] computes
    them. *)
Definition quarter (p : Point) : Point := Point_scale (1 # 4) p.
Definition midpoint (p q : Point) : Point := Point_scale (1 # 2) (Point_add p q).

(** The sum of a list of points. *)
Definition Point_sum (ps : list Point) : Point := foldr Point_add Point_origin ps.

(** What the loop of [subdivide_face] adds up in the center vertex: a quarter
    of each point, one after the other. *)
Definition accumulate (acc : Point) (ps : list Point) : Point :=
  foldl (λ a p, Point_add a (quarter p)) acc ps.

(** [g[v].position] *)
Definition position_of (gr : CLSGraph) (v : Vertex) : option Point :=
  position <$> vertices gr !! v.

(** What the loop of [subdivide_face] leaves alone, relative to the graph
    [gr0] at its start: the vertices other than the center, and the source of
    every half-edge of [gr0] that is still live. *)
Record frame (center : Vertex) (gr0 gr : CLSGraph) : Prop := mkFrame {
  frame_vertices : ∀ v vp,
    v ≠ center → vertices gr0 !! v = Some vp → vertices gr !! v = Some vp;
  frame_sources : ∀ e h0 h,
    edges gr0 !! e = Some h0 → edges gr !! e = Some h → he_source h = he_source h0;
  frame_counter : edge_counter gr0 ≤ edge_counter gr
}.

(** The corner read through a boundary half-edge, before and after the
    center vertex is appended. *)
Definition corner_of (center : Vertex) (gr0 : CLSGraph) (e : Edge) (p : Point) : Prop :=
  ∃ h0 vp, edges gr0 !! e = Some h0 ∧ he_source h0 ≠ center ∧
           vertices gr0 !! he_source h0 = Some vp ∧ p = position vp.

Definition source_position_or_origin (gr : CLSGraph) (e : Edge) : Point :=
  default Point_origin (source_position gr e).

(** Every successful run of [m] changes the graph by a sequence of
    mutations. *)
Definition traces {A} (m : M World A) : Prop :=
  ∀ w a w', m w = Ok (a, w') → rtc mutation (g (this w)) (g (this w')).

(** The same for an operation of the graph. *)
Definition gtraces {A} (m : M CLSGraph A) : Prop :=
  ∀ gr a gr', m gr = Ok (a, gr') → rtc mutation gr gr'.

(** Every live half-edge has a twin assigned. *)
Definition twin_assigned (gr : CLSGraph) : Prop :=
  ∀ x, is_Some (edges gr !! x) → is_Some (twin_of gr x).

(** Every successful run of [m] changes the graph by mutations other than
    [add_edge]. *)
Definition links {A} (m : M World A) : Prop :=
  ∀ w a w', m w = Ok (a, w') → rtc linked_mutation (g (this w)) (g (this w')).

(** [m] never reports [OutOfFuel]. *)
Definition fueled {S A} (m : M S A) : Prop := ∀ s, m s ≠ Err OutOfFuel.

(** ** The two meshes the constructor passes through *)

Definition half_edge (s t n tw f : nat) : HalfEdge :=
  mkHalfEdge s t (mkEdgeProps (Some n) (Some tw) (Some f)).

Section built.
Variables (f : Q) (c : Z).

Definition corner_a : Point := mkPoint f f 0.
Definition corner_b : Point := mkPoint (- f) f 0.
Definition corner_c : Point := mkPoint f (- f) 0.
Definition corner_d : Point := Point_origin.

Definition square_vertices : list VertexProps :=
  [ mkVertexProps corner_a c;
    mkVertexProps corner_b (c + 1);
    mkVertexProps corner_c (c + 1 + 1);
    mkVertexProps corner_d (c + 1 + 1 + 1) ]%Z.

Definition square_edges : list (Edge * HalfEdge) :=
  [ (0, half_edge 0 1 2 1 1);
    (1, half_edge 1 0 7 0 0);
    (2, half_edge 1 2 4 3 1);
    (3, half_edge 2 1 1 2 0);
    (4, half_edge 2 3 6 5 1);
    (5, half_edge 3 2 3 4 0);
    (6, half_edge 3 0 0 7 1);
    (7, half_edge 0 3 5 6 0) ].

(** The state after the first part of [init]: the bounding square. *)
Definition square : World :=
  mkWorld (c + 1 + 1 + 1 + 1)
    (mkCLS (mkGraph square_vertices (list_to_map square_edges) 8
                    [mkFaceProps 0 (Some 1); mkFaceProps 1 (Some 0)])
           None f (Some 0)).

Definition built_center : Point :=
  Point_add (Point_add (Point_add (Point_add Point_origin (quarter corner_a))
    (quarter corner_b)) (quarter corner_c)) (quarter corner_d).

Definition built_vertices : list VertexProps :=
  square_vertices ++
  [ mkVertexProps built_center (c + 1 + 1 + 1 + 1);
    mkVertexProps (midpoint corner_a corner_b) (c + 1 + 1 + 1 + 1 + 1);
    mkVertexProps (midpoint corner_b corner_c) (c + 1 + 1 + 1 + 1 + 1 + 1);
    mkVertexProps (midpoint corner_c corner_d) (c + 1 + 1 + 1 + 1 + 1 + 1 + 1);
    mkVertexProps (midpoint corner_d corner_a)
      (c + 1 + 1 + 1 + 1 + 1 + 1 + 1 + 1) ]%Z.

Definition built_edges : list (Edge * HalfEdge) :=
  [ (8, half_edge 0 5 9 11 1);
    (9, half_edge 5 1 12 10 1);
    (10, half_edge 1 5 11 9 0);
    (11, half_edge 5 0 22 8 0);
    (12, half_edge 1 6 13 15 1);
    (13, half_edge 6 2 16 14 1);
    (14, half_edge 2 6 15 13 0);
    (15, half_edge 6 1 10 12 0);
    (16, half_edge 2 7 17 19 1);
    (17, half_edge 7 3 20 18 1);
    (18, half_edge 3 7 19 17 0);
    (19, half_edge 7 2 14 16 0);
    (20, half_edge 3 8 21 23 1);
    (21, half_edge 8 0 8 22 1);
    (22, half_edge 0 8 23 21 0);
    (23, half_edge 8 3 18 20 0) ].

(** The state the constructor returns. *)
Definition built : World :=
  mkWorld (c + 1 + 1 + 1 + 1 + 1 + 1 + 1 + 1 + 1)
    (mkCLS (mkGraph built_vertices (list_to_map built_edges) 24
                    [mkFaceProps 0 (Some 10); mkFaceProps 1 (Some 8)])
           None f (Some 0)).
End built.

(** ** The accessors, and notions for the further properties *)

(** The object with its member [min_sampling] replaced. *)
Definition with_min_sampling (o : option Q) (w : World) : World :=
  mkWorld (count w)
    (mkCLS (g (this w)) o (far (this w)) (out_face (this w))).

(** The outcome of a run, seen from a world whose [min_sampling] is [o]. *)
Definition result_with_min_sampling {A} (o : option Q) (r : result (A * World))
    : result (A * World) :=
  match r with
  | Ok (a, w) => Ok (a, with_min_sampling o w)
  | Err e => Err e
  end.

(** [m] neither reads nor writes [min_sampling]. *)
Definition min_sampling_blind {A} (m : M World A) : Prop :=
  ∀ o w, m (with_min_sampling o w) = result_with_min_sampling o (m w).

(** The vertex indices of the mesh are pairwise distinct and all below the
    global counter. *)
Definition indices_unique (w : World) : Prop :=
  NoDup (vertex_indices w) ∧ Forall (λ i, (i < count w)%Z) (vertex_indices w).

(** The members of the object other than the graph, and the ids of the face
    table, are the same in [w] and [w']. *)
Definition same_members (w w' : World) : Prop :=
  idx <$> faces (g (this w')) = idx <$> faces (g (this w)) ∧
  out_face (this w') = out_face (this w) ∧
  far (this w') = far (this w) ∧
  min_sampling (this w') = min_sampling (this w).

(** From [w] to [w'] the vertex list has only grown at its end, by vertices
    whose indices are the consecutive values of the global counter. *)
Definition vertices_appended (w w' : World) : Prop :=
  ∃ new,
    vertices (g (this w')) = vertices (g (this w)) ++ new ∧
    index <$> new = (λ i, count w + Z.of_nat i)%Z <$> seq 0 (length new) ∧
    count w' = (count w + Z.of_nat (length new))%Z.

(** The half-edges of [gr0] that are still live in [gr] have kept their
    target. *)
Definition targets_kept (gr0 gr : CLSGraph) : Prop :=
  ∀ e h0 h,
    edges gr0 !! e = Some h0 → edges gr !! e = Some h → he_target h = he_target h0.

(** [m] sits at the mid-point of the two endpoints that the half-edge [e] has
    in [gr0]. *)
Definition midpoint_of (gr0 : CLSGraph) (e : Edge) (m : VertexProps) : Prop :=
  ∃ h ps pt,
    edges gr0 !! e = Some h ∧
    vertices gr0 !! he_source h = Some ps ∧
    vertices gr0 !! he_target h = Some pt ∧
    position m = midpoint (position ps) (position pt).

(** The endpoints of [e] in [gr0] are vertices of [gr0] other than
    [center]. *)
Definition endpoints_apart (center : Vertex) (gr0 : CLSGraph) (e : Edge) : Prop :=
  ∃ h ps pt,
    edges gr0 !! e = Some h ∧
    he_source h ≠ center ∧ he_target h ≠ center ∧
    vertices gr0 !! he_source h = Some ps ∧
    vertices gr0 !! he_target h = Some pt.

(** [BOOST_FOREACH(x, l) { ...; plist.append(b); }] on a Python list that
    holds [plist] so far: every round appends at the end. *)
Fixpoint collect_from {S A B} (plist : list B) (l : list A) (body : A → M S B)
    : M S (list B) :=
  match l with
  | [] => ret plist
  | a :: l' => let* b := body a in collect_from (plist ++ [b]) l' body
  end.

(** The same, starting from the empty list. *)
Definition collect {S A B} (l : list A) (body : A → M S B) : M S (list B) :=
  collect_from [] l body.

(** Modelled from the spec: [HEDIGraph::vertices] is missing.  "vertices(),
    edges(), faces(): produce a lazy, restartable sequence over current
    entities": the vertex descriptors, in the order of creation. *)
Definition vertex_sequence (gr : CLSGraph) : list Vertex :=
  seq 0 (num_vertices gr).

(** Modelled from the spec: [HEDIGraph::edges] is missing.  "vertices(),
    edges(), faces(): produce a lazy, restartable sequence over current
    entities": the descriptors of the live half-edges, in the order of
    creation. *)
Definition edge_sequence (gr : CLSGraph) : list Edge :=
  filter (λ e, is_Some (edges gr !! e)) (seq 0 (edge_counter gr)).

(** [boost::python::list getVertices()] *)
Definition getVertices : M World (list Point) :=
  let* vs := on_g (gets vertex_sequence) in
  collect vs (λ v, let* vp := on_g (get_vertex v) in ret (position vp)).

(** [boost::python::list getEdges()]: a list of two-element lists. *)
Definition getEdges : M World (list (list Point)) :=
  let* es := on_g (gets edge_sequence) in
  collect es (λ edge,
    let* v1 := on_g (source edge) in
    let* v2 := on_g (target edge) in
    let* p1 := on_g (get_vertex v1) in
    let* p2 := on_g (get_vertex v2) in
    ret [position p1; position p2]).

(** The two endpoint positions of a live half-edge. *)
Definition edge_points (gr : CLSGraph) (e : Edge) (pl : list Point) : Prop :=
  ∃ h ps pt,
    edges gr !! e = Some h ∧
    vertices gr !! he_source h = Some ps ∧
    vertices gr !! he_target h = Some pt ∧
    pl = [position ps; position pt].

Section PointDropCutter_py.
Variable CLPoint : Type.

(** [boost::python::list PointDropCutter_py::getCLPoints_py()], with the
    vector that the member [clpoints] of the base class points to. *)
Definition getCLPoints_py (clpoints : list CLPoint) : list CLPoint :=
  foldl (λ plist p, plist ++ [p]) [] clpoints.
End PointDropCutter_py.

(** No half-edge is its own twin. *)
Definition no_self_twin (gr : CLSGraph) : Prop :=
  ∀ e, twin_of gr e ≠ Some e.

(** From [w] to [w'] the mesh invariant and the absence of self-twins are
    kept, and the number of live half-edges has grown by [n]. *)
Definition edges_grown (n : nat) (w w' : World) : Prop :=
  mesh_inv (g (this w')) ∧ no_self_twin (g (this w')) ∧
  num_edges (g (this w')) = num_edges (g (this w)) + n.

(** A world whose mesh has the outer face and nothing else. *)
Definition only_outer_face : World :=
  mkWorld 0 (mkCLS (mkGraph [] ∅ 0 [mkFaceProps 0 None]) None 1 (Some 0)).

(** The bounded faces with an id from [f] on. *)
Definition bounded_faces_from (f : Face) (w : World) : list Face :=
  filter (λ f', Some f' ≠ out_face (this w))
         (seq f (num_faces (g (this w)) - f)).

(** * Proofs *)

(** ** Reasoning about the monad *)

Lemma bind_Ok {S A B} (m : M S A) (k : A → M S B) (s : S) (r : B * S) :
  bind m k s = Ok r → ∃ a s1, m s = Ok (a, s1) ∧ k a s1 = Ok r.
Proof.
  unfold bind. destruct (m s) as [[a s1]|e]; [|discriminate].
  intros Hk. by exists a, s1.
Qed.

Lemma bind_Err {S A B} (m : M S A) (k : A → M S B) (s : S) (e : error) :
  bind m k s = Err e →
  m s = Err e ∨ ∃ a s1, m s = Ok (a, s1) ∧ k a s1 = Err e.
Proof.
  unfold bind. destruct (m s) as [[a s1]|e']; [|intros [= ->]; by left].
  intros Hk. right. by exists a, s1.
Qed.

Lemma on_g_Ok {A} (m : M CLSGraph A) (w w' : World) (a : A) :
  on_g m w = Ok (a, w') →
  ∃ gr', m (g (this w)) = Ok (a, gr') ∧ w' = with_g gr' w.
Proof.
  unfold on_g. destruct (m (g (this w))) as [[a' gr']|e]; [|discriminate].
  intros [= <- <-]. by exists gr'.
Qed.

Lemma on_g_Err {A} (m : M CLSGraph A) (w : World) (e : error) :
  on_g m w = Err e → m (g (this w)) = Err e.
Proof.
  unfold on_g. destruct (m (g (this w))) as [[a gr']|e']; congruence.
Qed.

(** Decompose a successful run of a monadic program into its steps. *)
Ltac minv H :=
  lazymatch type of H with
  | bind _ _ _ = Ok _ =>
      let a := fresh "a" in
      let s := fresh "s" in
      let H1 := fresh "Hstep" in
      apply bind_Ok in H as (a & s & H1 & H); minv H1; minv H
  | on_g _ _ = Ok _ =>
      let gr := fresh "gr" in
      let Hw := fresh "Hw" in
      apply on_g_Ok in H as (gr & H & Hw); simpl in H, Hw; subst; minv H
  | ret _ _ = Ok _ => unfold ret in H; simplify_eq H; intros; subst
  | gets _ _ = Ok _ => unfold gets in H; simplify_eq H; intros; subst
  | modify _ _ = Ok _ => unfold modify in H; simplify_eq H; intros; subst
  | fail _ _ = Ok _ => discriminate H
  | from_option _ ?o _ = Ok _ =>
      let E := fresh "Hsome" in
      destruct o eqn:E; simpl in H; [minv H | discriminate H]
  | cassert ?b _ = Ok _ =>
      let E := fresh "Hassert" in
      destruct b eqn:E; simpl in H; [minv H | discriminate H]
  | _ => idtac
  end.

(** ** What the graph operations do *)

Lemma get_vertex_Ok (v : Vertex) (gr gr' : CLSGraph) (vp : VertexProps) :
  get_vertex v gr = Ok (vp, gr') → vertices gr !! v = Some vp ∧ gr' = gr.
Proof.
  unfold get_vertex. intros H. minv H. done.
Qed.

Lemma get_edge_Ok (e : Edge) (gr gr' : CLSGraph) (h : HalfEdge) :
  get_edge e gr = Ok (h, gr') → edges gr !! e = Some h ∧ gr' = gr.
Proof.
  unfold get_edge. intros H. minv H. done.
Qed.

Lemma get_face_Ok (f : Face) (gr gr' : CLSGraph) (fp : FaceProps) :
  get_face f gr = Ok (fp, gr') → faces gr !! f = Some fp ∧ gr' = gr.
Proof.
  unfold get_face. intros H. minv H. done.
Qed.

Lemma set_position_Ok (v : Vertex) (p : Point) (gr gr' : CLSGraph) :
  set_position v p gr = Ok (tt, gr') →
  ∃ vp, vertices gr !! v = Some vp ∧
        gr' = with_vertices (<[v := mkVertexProps p (index vp)]> (vertices gr)) gr.
Proof.
  unfold set_position. intros H. minv H.
  apply get_vertex_Ok in Hstep as [Hv ->]. eauto.
Qed.

Lemma set_edge_next_Ok (e n : Edge) (gr gr' : CLSGraph) :
  set_edge_next e n gr = Ok (tt, gr') →
  is_Some (edges gr !! e) ∧ gr' = with_edges (alter (set_next n) e (edges gr)) gr.
Proof.
  unfold set_edge_next. intros H. minv H.
  apply get_edge_Ok in Hstep as [He ->]. eauto.
Qed.

Lemma set_edge_face_Ok (e : Edge) (f : Face) (gr gr' : CLSGraph) :
  set_edge_face e f gr = Ok (tt, gr') →
  is_Some (edges gr !! e) ∧ gr' = with_edges (alter (set_face f) e (edges gr)) gr.
Proof.
  unfold set_edge_face. intros H. minv H.
  apply get_edge_Ok in Hstep as [He ->]. eauto.
Qed.

Lemma set_face_edge_Ok (f : Face) (e : Edge) (gr gr' : CLSGraph) :
  set_face_edge f e gr = Ok (tt, gr') →
  ∃ fp, faces gr !! f = Some fp ∧
        gr' = with_faces (<[f := mkFaceProps (idx fp) (Some e)]> (faces gr)) gr.
Proof.
  unfold set_face_edge. intros H. minv H.
  apply get_face_Ok in Hstep as [Hf ->]. eauto.
Qed.

Lemma push_vertex_Ok (vp : VertexProps) (gr : CLSGraph) :
  push_vertex vp gr = Ok (num_vertices gr, with_vertices (vertices gr ++ [vp]) gr).
Proof. reflexivity. Qed.

Lemma add_face_Ok (gr : CLSGraph) :
  add_face gr
  = Ok (num_faces gr, with_faces (faces gr ++ [mkFaceProps (num_faces gr) None]) gr).
Proof. reflexivity. Qed.

Lemma add_edge_Ok (s t : Vertex) (gr gr' : CLSGraph) (e : Edge) :
  add_edge s t gr = Ok (e, gr') →
  s < num_vertices gr ∧ t < num_vertices gr ∧ e = edge_counter gr ∧
  gr' = mkGraph (vertices gr)
          (<[edge_counter gr := mkHalfEdge s t EdgeProps_default]> (edges gr))
          (S (edge_counter gr)) (faces gr).
Proof.
  unfold add_edge. intros H. minv H.
  apply get_vertex_Ok in Hstep as [Hs ->].
  apply get_vertex_Ok in Hstep0 as [Ht ->].
  apply lookup_lt_Some in Hs, Ht. done.
Qed.

Lemma twin_edges_Ok (e1 e2 : Edge) (gr gr' : CLSGraph) :
  twin_edges e1 e2 gr = Ok (tt, gr') →
  ∃ h1 h2, edges gr !! e1 = Some h1 ∧ edges gr !! e2 = Some h2 ∧
           twin_free h1 e2 = true ∧ twin_free h2 e1 = true ∧
           gr' = with_edges
                   (alter (set_twin e1) e2 (alter (set_twin e2) e1 (edges gr))) gr.
Proof.
  unfold twin_edges. intros H. minv H.
  apply get_edge_Ok in Hstep as [H1 ->].
  apply get_edge_Ok in Hstep0 as [H2 ->]. simpl in *.
  destruct (twin_free a e2) eqn:F1, (twin_free a0 e1) eqn:F2; simpl in H;
    try discriminate H.
  minv H. eauto 10.
Qed.

Lemma previous_edge_Ok (e : Edge) (gr gr' : CLSGraph) (p : Edge) :
  previous_edge e gr = Ok (p, gr') → gr' = gr.
Proof.
  unfold previous_edge. destruct (walk_next _ _ _ _); congruence.
Qed.

Lemma insert_vertex_in_edge_Ok (v : Vertex) (e : Edge) (gr gr' : CLSGraph) :
  insert_vertex_in_edge v e gr = Ok (tt, gr') →
  ∃ h t ht previous twin_previous,
    v < num_vertices gr ∧
    edges gr !! e = Some h ∧ he_twin h = Some t ∧ edges gr !! t = Some ht ∧
    he_source h < num_vertices gr ∧ he_target h < num_vertices gr ∧
    gr' = splice v e t previous twin_previous h ht gr.
Proof.
  unfold insert_vertex_in_edge. intros H. minv H.
  apply get_vertex_Ok in Hstep as [Hv ->].
  apply get_edge_Ok in Hstep0 as [He ->].
  apply get_edge_Ok in Hstep2 as [Ht ->].
  apply get_vertex_Ok in Hstep3 as [Hs ->].
  apply get_vertex_Ok in Hstep4 as [Htg ->].
  apply previous_edge_Ok in Hstep5 as ->.
  apply previous_edge_Ok in Hstep6 as ->.
  apply lookup_lt_Some in Hv, Hs, Htg.
  do 5 eexists. repeat split; eauto.
Qed.

(** ** Invariants under mutation *)

Lemma twin_of_alter (gr : CLSGraph) (f : HalfEdge → HalfEdge) (k x : Edge) :
  (∀ h, he_twin (f h) = he_twin h) →
  twin_of (with_edges (alter f k (edges gr)) gr) x = twin_of gr x.
Proof.
  intros Hf. unfold twin_of. simpl. rewrite lookup_alter.
  case_decide; [subst|done]. destruct (edges gr !! x); simpl; auto.
Qed.

Lemma lookup_alter_Some (m : gmap Edge HalfEdge) (f : HalfEdge → HalfEdge)
    (k x : Edge) (h' : HalfEdge) :
  alter f k m !! x = Some h' → ∃ h, m !! x = Some h ∧ (h' = h ∨ h' = f h).
Proof.
  rewrite lookup_alter. case_decide; [subst|eauto].
  destruct (m !! x) as [h|]; simpl; [|done]. intros [= <-]. eauto.
Qed.

Lemma twin_of_Some (gr : CLSGraph) (e t : Edge) :
  twin_of gr e = Some t ↔ ∃ h, edges gr !! e = Some h ∧ he_twin h = Some t.
Proof.
  unfold twin_of. destruct (edges gr !! e) as [h|]; simpl.
  - split; [by eauto|]. by intros (h' & [= <-] & Ht).
  - split; [done|]. by intros (h' & [=] & _).
Qed.

Lemma twin_of_lt (gr : CLSGraph) (e t : Edge) :
  counter_fresh gr → twin_of gr e = Some t → e < edge_counter gr.
Proof.
  intros Hc (h & He & _)%twin_of_Some. exact (Hc _ _ He).
Qed.

(** Mutations that keep the edge table, or only alter fields other than the
    twin. *)
Lemma mesh_inv_alter (gr : CLSGraph) (f : HalfEdge → HalfEdge) (k : Edge) :
  (∀ h, he_twin (f h) = he_twin h) →
  (∀ h, he_source (f h) = he_source h) →
  (∀ h, he_target (f h) = he_target h) →
  mesh_inv gr → mesh_inv (with_edges (alter f k (edges gr)) gr).
Proof.
  intros Ht Hs Htg (Htw & Hc & Hk). split; [|split].
  - intros e t. rewrite !twin_of_alter by done. apply Htw.
  - intros e h (h0 & He & _)%lookup_alter_Some. exact (Hc _ _ He).
  - intros e h (h0 & He & Hh)%lookup_alter_Some.
    pose proof (Hk _ _ He) as Hb. simpl in *. unfold num_vertices in *. simpl.
    destruct Hh as [->| ->]; [done|]. by rewrite Hs, Htg.
Qed.

Lemma mesh_inv_vertices (gr : CLSGraph) (vs : list VertexProps) :
  length (vertices gr) ≤ length vs →
  mesh_inv gr → mesh_inv (with_vertices vs gr).
Proof.
  intros Hl (Htw & Hc & Hk). split; [|split]; [done..|].
  intros e h He. pose proof (Hk _ _ He) as Hb. simpl in *.
  unfold num_vertices in *. simpl. lia.
Qed.

Lemma mesh_inv_faces (gr : CLSGraph) (fs : list FaceProps) :
  mesh_inv gr → mesh_inv (with_faces fs gr).
Proof. intros (Htw & Hc & Hk). done. Qed.

Lemma mesh_inv_add_edge (gr : CLSGraph) (s t : Vertex) :
  s < num_vertices gr → t < num_vertices gr →
  mesh_inv gr →
  mesh_inv (mkGraph (vertices gr)
              (<[edge_counter gr := mkHalfEdge s t EdgeProps_default]> (edges gr))
              (S (edge_counter gr)) (faces gr)).
Proof.
  intros Hs Ht (Htw & Hc & Hk). split; [|split].
  - intros e e'. unfold twin_of at 1. simpl. rewrite lookup_insert.
    case_decide; [done|]. intros He. fold (twin_of gr e) in He.
    pose proof (Htw _ _ He) as He'. pose proof (twin_of_lt _ _ _ Hc He') as Hlt.
    unfold twin_of. simpl. rewrite lookup_insert_ne by lia. exact He'.
  - intros e h. simpl. rewrite lookup_insert. case_decide; [lia|].
    intros He. pose proof (Hc _ _ He). simpl in *. lia.
  - intros e h. simpl. rewrite lookup_insert. case_decide.
    + intros [= <-]. done.
    + intros He. exact (Hk _ _ He).
Qed.

Lemma twin_free_Some (h : HalfEdge) (t t' : Edge) :
  twin_free h t = true → he_twin h = Some t' → t' = t.
Proof.
  unfold twin_free. intros H E. rewrite E in H. by apply bool_decide_eq_true in H.
Qed.

Lemma twin_of_twin_edges (gr : CLSGraph) (e1 e2 x : Edge) :
  is_Some (edges gr !! e1) → is_Some (edges gr !! e2) →
  twin_of (with_edges (alter (set_twin e1) e2 (alter (set_twin e2) e1 (edges gr))) gr) x
  = if decide (x = e2) then Some e1
    else if decide (x = e1) then Some e2 else twin_of gr x.
Proof.
  intros [h1 H1] [h2 H2]. unfold twin_of. simpl.
  rewrite !lookup_alter.
  repeat case_decide; simplify_eq; try done.
  - rewrite H1. done.
  - rewrite H2. done.
  - rewrite H1. done.
Qed.

Lemma mesh_inv_twin_edges (gr : CLSGraph) (e1 e2 : Edge) (h1 h2 : HalfEdge) :
  edges gr !! e1 = Some h1 → edges gr !! e2 = Some h2 →
  twin_free h1 e2 = true → twin_free h2 e1 = true →
  mesh_inv gr →
  mesh_inv (with_edges (alter (set_twin e1) e2 (alter (set_twin e2) e1 (edges gr))) gr).
Proof.
  intros H1 H2 F1 F2 (Htw & Hc & Hk). split; [|split].
  - intros x t. rewrite !twin_of_twin_edges by eauto. intros Hx.
    destruct (decide (x = e2)) as [->|Hx2].
    { simplify_eq. repeat case_decide; congruence. }
    destruct (decide (x = e1)) as [->|Hx1].
    { simplify_eq. by rewrite decide_True. }
    pose proof (Htw _ _ Hx) as Ht.
    apply twin_of_Some in Ht as (h & He & Hh).
    destruct (decide (t = e2)) as [->|Ht2].
    { simplify_eq. by pose proof (twin_free_Some _ _ _ F2 Hh). }
    destruct (decide (t = e1)) as [->|Ht1].
    { simplify_eq. by pose proof (twin_free_Some _ _ _ F1 Hh). }
    apply twin_of_Some. eauto.
  - intros e h (h0 & (h00 & He & _)%lookup_alter_Some & _)%lookup_alter_Some.
    exact (Hc _ _ He).
  - intros e h (h0 & (h00 & He & Hh0)%lookup_alter_Some & Hh)%lookup_alter_Some.
    pose proof (Hk _ _ He) as Hb. simpl in *.
    destruct Hh as [->| ->], Hh0 as [->| ->]; done.
Qed.

Lemma lookup_alter_twin (m : gmap Edge HalfEdge) (n k x : Edge) :
  alter (set_next n) k m !! x ≫= he_twin = m !! x ≫= he_twin.
Proof.
  rewrite lookup_alter. case_decide; [subst|done]. by destruct (m !! x).
Qed.

Lemma twin_of_splice (gr : CLSGraph) (v : Vertex) (e t p tp : Edge)
    (h ht : HalfEdge) (x : Edge) :
  let n := edge_counter gr in
  twin_of (splice v e t p tp h ht gr) x
  = if decide (x = t) then None
    else if decide (x = e) then None
    else if decide (x = S (S (S n))) then Some n
    else if decide (x = S (S n)) then Some (S n)
    else if decide (x = S n) then Some (S (S n))
    else if decide (x = n) then Some (S (S (S n)))
    else twin_of gr x.
Proof.
  intros n. unfold twin_of, splice. simpl. fold n.
  rewrite lookup_delete. case_decide; [by rewrite decide_True|].
  rewrite decide_False by done.
  rewrite lookup_delete. case_decide; [by rewrite decide_True|].
  rewrite decide_False by done.
  rewrite !lookup_alter_twin.
  rewrite !lookup_insert.
  repeat case_decide; subst; try lia; done.
Qed.

Lemma splice_lookup (gr : CLSGraph) (v : Vertex) (e t p tp : Edge)
    (h ht : HalfEdge) (x : Edge) (hx : HalfEdge) :
  edges (splice v e t p tp h ht gr) !! x = Some hx →
  (edge_counter gr ≤ x < 4 + edge_counter gr ∧
   (he_source hx = he_source h ∨ he_source hx = he_source ht ∨ he_source hx = v) ∧
   (he_target hx = he_target h ∨ he_target hx = he_target ht ∨ he_target hx = v))
  ∨ (x ≠ e ∧ x ≠ t ∧
     ∃ h0, edges gr !! x = Some h0 ∧ he_source hx = he_source h0 ∧
           he_target hx = he_target h0).
Proof.
  unfold splice. simpl. set (n := edge_counter gr).
  rewrite lookup_delete. case_decide; [done|].
  rewrite lookup_delete. case_decide; [done|].
  intros (h1 & (h2 & Hl & Hh2)%lookup_alter_Some & Hh1)%lookup_alter_Some.
  assert (he_source hx = he_source h2 ∧ he_target hx = he_target h2) as [-> ->].
  { destruct Hh1 as [->| ->], Hh2 as [->| ->]; done. }
  clear Hh1 Hh2. revert Hl. rewrite !lookup_insert.
  repeat case_decide; subst; try (intros [= <-]; left; simpl; split; [lia|tauto]).
  intros Hl. right. eauto 10.
Qed.

Lemma mesh_inv_splice (gr : CLSGraph) (v : Vertex) (e t p tp : Edge)
    (h ht : HalfEdge) :
  v < num_vertices gr →
  edges gr !! e = Some h → he_twin h = Some t → edges gr !! t = Some ht →
  mesh_inv gr → mesh_inv (splice v e t p tp h ht gr).
Proof.
  intros Hv He Hht Ht (Htw & Hc & Hk).
  pose proof (Hc _ _ He) as Hlte. pose proof (Hc _ _ Ht) as Hltt. simpl in *.
  assert (twin_of gr e = Some t) as Hte by (apply twin_of_Some; eauto).
  pose proof (Htw _ _ Hte) as Htt.
  split; [|split].
  - intros x y. rewrite !twin_of_splice. intros Hx.
    repeat (case_decide; simplify_eq; try lia); try done.
    all: try (pose proof (twin_of_lt _ _ _ Hc Hx); lia).
    all: pose proof (Htw _ _ Hx) as Hy;
         try (pose proof (twin_of_lt _ _ _ Hc Hy); lia); congruence.
  - intros x hx [(Hr & _)|(_ & _ & h0 & H0 & _)]%splice_lookup.
    + simpl. lia.
    + pose proof (Hc _ _ H0). simpl in *. lia.
  - intros x hx Hx.
    pose proof (Hk _ _ He) as [Hes Het]. pose proof (Hk _ _ Ht) as [Hts Htt'].
    apply splice_lookup in Hx as [(_ & Hs & Htg)|(_ & _ & h0 & Hx0 & -> & ->)].
    + unfold num_vertices in *. simpl.
      split; [destruct Hs as [->|[->| ->]]|destruct Htg as [->|[->| ->]]]; done.
    + exact (Hk _ _ Hx0).
Qed.

Lemma mesh_inv_empty : mesh_inv empty_graph.
Proof.
  split; [|split].
  - intros e t. unfold twin_of. simpl. by rewrite lookup_empty.
  - apply map_Forall_empty.
  - apply map_Forall_empty.
Qed.

Lemma mutation_mesh_inv (gr gr' : CLSGraph) :
  mutation gr gr' → mesh_inv gr → mesh_inv gr'.
Proof.
  intros Hm Hi. destruct Hm as
    [vp gr v gr' H|v p gr gr' H|gr f gr' H|s t gr e gr' H|f e gr gr' H
    |e1 e2 gr gr' H|e f gr gr' H|e n gr gr' H|v e gr gr' H].
  - rewrite push_vertex_Ok in H. simplify_eq.
    apply mesh_inv_vertices; [|done]. rewrite length_app. lia.
  - apply set_position_Ok in H as (vp & _ & ->).
    apply mesh_inv_vertices; [|done]. by rewrite length_insert.
  - rewrite add_face_Ok in H. simplify_eq. by apply mesh_inv_faces.
  - apply add_edge_Ok in H as (Hs & Ht & _ & ->). by apply mesh_inv_add_edge.
  - apply set_face_edge_Ok in H as (fp & _ & ->). by apply mesh_inv_faces.
  - apply twin_edges_Ok in H as (h1 & h2 & H1 & H2 & F1 & F2 & ->).
    by eapply mesh_inv_twin_edges.
  - apply set_edge_face_Ok in H as (_ & ->). by apply mesh_inv_alter.
  - apply set_edge_next_Ok in H as (_ & ->). by apply mesh_inv_alter.
  - apply insert_vertex_in_edge_Ok in H
      as (h & t & ht & p & tp & Hv & He & Hht & Ht & _ & _ & ->).
    by apply mesh_inv_splice.
Qed.

Lemma rtc_mutation_mesh_inv (gr gr' : CLSGraph) :
  rtc mutation gr gr' → mesh_inv gr → mesh_inv gr'.
Proof.
  induction 1 as [|gr1 gr2 gr3 Hstep _ IH]; [done|].
  intros Hi. apply IH. by eapply mutation_mesh_inv.
Qed.

Lemma reachable_mesh_inv (gr : CLSGraph) : reachable gr → mesh_inv gr.
Proof. intros Hr. eapply rtc_mutation_mesh_inv; [exact Hr|apply mesh_inv_empty]. Qed.

Lemma traces_ret {A} (a : A) : traces (ret a).
Proof. intros w a' w' H. minv H. done. Qed.

Lemma traces_bind {A B} (m : M World A) (k : A → M World B) :
  traces m → (∀ a, traces (k a)) → traces (bind m k).
Proof.
  intros Hm Hk w b w' H. apply bind_Ok in H as (a & w1 & H1 & H2).
  etrans; [by eapply Hm|by eapply Hk].
Qed.

Lemma traces_gets {A} (f : World → A) : traces (gets f).
Proof. intros w a' w' H. minv H. done. Qed.

Lemma traces_cassert (b : bool) : traces (cassert b).
Proof. intros w a' w' H. minv H. done. Qed.

Lemma traces_on_g {A} (m : M CLSGraph A) : gtraces m → traces (on_g m).
Proof.
  intros Hm w a w' H. apply on_g_Ok in H as (gr' & H & ->). by eapply Hm.
Qed.

Lemma traces_foreach {A} (l : list A) (body : A → M World unit) :
  (∀ a, traces (body a)) → traces (foreach l body).
Proof.
  intros Hb. induction l as [|a l IH]; simpl.
  - apply traces_ret.
  - apply traces_bind; [apply Hb|intros _; apply IH].
Qed.

Lemma gtraces_read {A} (m : M CLSGraph A) :
  (∀ gr a gr', m gr = Ok (a, gr') → gr' = gr) → gtraces m.
Proof. intros Hm gr a gr' H. by rewrite (Hm _ _ _ H). Qed.

Lemma gtraces_step {A} (m : M CLSGraph A) :
  (∀ gr a gr', m gr = Ok (a, gr') → mutation gr gr') → gtraces m.
Proof. intros Hm gr a gr' H. apply rtc_once. by eapply Hm. Qed.

Lemma gtraces_source e : gtraces (source e).
Proof.
  apply gtraces_read. intros gr a gr' H. unfold source in H. minv H.
  by apply get_edge_Ok in Hstep as [_ ->].
Qed.

Lemma gtraces_target e : gtraces (target e).
Proof.
  apply gtraces_read. intros gr a gr' H. unfold target in H. minv H.
  by apply get_edge_Ok in Hstep as [_ ->].
Qed.

Lemma gtraces_get_vertex v : gtraces (get_vertex v).
Proof.
  apply gtraces_read. intros gr a gr' H. by apply get_vertex_Ok in H as [_ ->].
Qed.

Lemma face_edges_Ok (f : Face) (gr gr' : CLSGraph) (l : list Edge) :
  face_edges f gr = Ok (l, gr') → gr' = gr.
Proof.
  unfold face_edges. intros H. minv H.
  apply get_face_Ok in Hstep as [_ ->].
  destruct (walk_next _ _ _ _); congruence.
Qed.

Lemma gtraces_face_edges f : gtraces (face_edges f).
Proof. apply gtraces_read. intros gr a gr' H. by eapply face_edges_Ok. Qed.

Lemma gtraces_gets {A} (f : CLSGraph → A) : gtraces (gets f).
Proof. apply gtraces_read. intros gr a gr' H. by minv H. Qed.

Lemma gtraces_add_to_position v d : gtraces (add_to_position v d).
Proof.
  intros gr a gr' H. unfold add_to_position in H. minv H.
  apply get_vertex_Ok in Hstep as [_ ->]. destruct a.
  apply rtc_once. by eapply mut_set_position.
Qed.

Lemma traces_add_vertex : traces add_vertex.
Proof.
  intros w v w' H. unfold add_vertex in H. minv H. simpl in H. minv H.
  simpl. apply rtc_once. by eapply mut_push_vertex.
Qed.

Lemma traces_set_out_face f : traces (set_out_face f).
Proof. intros w a w' H. unfold set_out_face in H. minv H. done. Qed.

Local Ltac gstep :=
  apply gtraces_step; intros ? [] ? ?;
  first [ by eapply mut_set_position | by eapply mut_set_face_edge
        | by eapply mut_twin_edges | by eapply mut_set_edge_face
        | by eapply mut_set_edge_next | by eapply mut_insert_vertex_in_edge ].

Local Ltac traces_tac :=
  repeat first
    [ apply traces_add_vertex
    | apply traces_set_out_face
    | apply traces_ret
    | apply traces_gets
    | apply traces_cassert
    | apply traces_bind; [|intros ?]
    | apply traces_foreach; intros ?
    | apply traces_on_g;
      first [ apply gtraces_source | apply gtraces_target
            | apply gtraces_get_vertex | apply gtraces_face_edges
            | apply gtraces_gets | apply gtraces_add_to_position
            | apply gtraces_step; intros ? ? ? ?; by eapply mut_add_face
            | apply gtraces_step; intros ? ? ? ?; by eapply mut_add_edge
            | gstep ] ].

Lemma traces_split_edge center e : traces (split_edge center e).
Proof. unfold split_edge. traces_tac. Qed.

Lemma traces_subdivide_face f : traces (subdivide_face f).
Proof.
  unfold subdivide_face. traces_tac.
Qed.

Lemma traces_subdivide_from fuel : ∀ f, traces (subdivide_from f fuel).
Proof.
  induction fuel as [|fuel IH]; intros f; simpl.
  - apply traces_bind; [traces_tac|intros n].
    case_bool_decide; [|apply traces_ret].
    intros ? ? ? Hf. discriminate Hf.
  - apply traces_bind; [traces_tac|intros n].
    case_bool_decide; [|apply traces_ret].
    apply traces_bind; [traces_tac|intros o].
    apply traces_bind; [|intros _; apply IH].
    case_bool_decide; [apply traces_subdivide_face|apply traces_ret].
Qed.

Lemma traces_subdivide : traces subdivide.
Proof.
  unfold subdivide. apply traces_bind; [traces_tac|intros n].
  apply traces_subdivide_from.
Qed.

Lemma traces_init_square : traces init_square.
Proof. unfold init_square. traces_tac. Qed.

Lemma traces_init : traces init.
Proof.
  unfold init. apply traces_bind; [apply traces_init_square|intros _].
  apply traces_subdivide.
Qed.

(** ** One iteration of the splitting loop *)

Lemma source_Ok (e : Edge) (gr gr' : CLSGraph) (v : Vertex) :
  source e gr = Ok (v, gr') →
  ∃ h, edges gr !! e = Some h ∧ v = he_source h ∧ gr' = gr.
Proof.
  unfold source, bind, ret. destruct (get_edge e gr) as [[h gr1]|] eqn:E; [|done].
  apply get_edge_Ok in E as [He ->]. intros [= <- <-]. eauto.
Qed.

Lemma target_Ok (e : Edge) (gr gr' : CLSGraph) (v : Vertex) :
  target e gr = Ok (v, gr') →
  ∃ h, edges gr !! e = Some h ∧ v = he_target h ∧ gr' = gr.
Proof.
  unfold target, bind, ret. destruct (get_edge e gr) as [[h gr1]|] eqn:E; [|done].
  apply get_edge_Ok in E as [He ->]. intros [= <- <-]. eauto.
Qed.

Lemma add_to_position_Ok (v : Vertex) (d : Point) (gr gr' : CLSGraph) :
  add_to_position v d gr = Ok (tt, gr') →
  ∃ vp, vertices gr !! v = Some vp ∧
        gr' = with_vertices
                (<[v := mkVertexProps (Point_add (position vp) d) (index vp)]>
                   (vertices gr)) gr.
Proof.
  unfold add_to_position, bind.
  destruct (get_vertex v gr) as [[vp gr1]|] eqn:E; [|done].
  apply get_vertex_Ok in E as [Hv ->].
  intros (vp' & Hv' & ->)%set_position_Ok. simplify_eq. eauto.
Qed.

Lemma add_vertex_Ok (w : World) :
  add_vertex w
  = Ok (num_vertices (g (this w)),
        mkWorld (count w + 1)
          (mkCLS (with_vertices (vertices (g (this w))
                                 ++ [mkVertexProps Point_origin (count w)])
                                (g (this w)))
                 (min_sampling (this w)) (far (this w)) (out_face (this w)))).
Proof. reflexivity. Qed.

Lemma split_edge_Ok (center : Vertex) (e : Edge) (w w' : World) :
  split_edge center e w = Ok (tt, w') →
  ∃ h ps pt vc gr',
    edges (g (this w)) !! e = Some h ∧
    vertices (g (this w)) !! he_source h = Some ps ∧
    vertices (g (this w)) !! he_target h = Some pt ∧
    vertices (g (this w)) !! center = Some vc ∧
    insert_vertex_in_edge (num_vertices (g (this w))) e
      (with_vertices
         (<[center := mkVertexProps
                        (Point_add (position vc) (quarter (position ps)))
                        (index vc)]> (vertices (g (this w)))
          ++ [mkVertexProps (midpoint (position ps) (position pt)) (count w)])
         (g (this w)))
    = Ok (tt, gr') ∧
    w' = mkWorld (count w + 1) (mkCLS gr' (min_sampling (this w)) (far (this w)) (out_face (this w))).
Proof.
  unfold split_edge. intros H. minv H.
  apply source_Ok in Hstep as (h & He & -> & ->).
  apply target_Ok in Hstep0 as (h' & He' & -> & ->). simplify_eq.
  apply get_vertex_Ok in Hstep1 as [Hs ->].
  apply get_vertex_Ok in Hstep2 as [Ht ->].
  destruct a3. apply add_to_position_Ok in Hstep3 as (vc & Hc & ->).
  rewrite add_vertex_Ok in Hstep4. simplify_eq. simpl in Hstep5.
  destruct a5. apply set_position_Ok in Hstep5 as (vn & Hn & ->).
  revert Hn H. unfold num_vertices. simpl. rewrite length_insert.
  rewrite list_lookup_middle by (by rewrite length_insert).
  intros [= <-]. simpl.
  rewrite (insert_app_r_alt _ [_]) by (rewrite length_insert; lia).
  rewrite length_insert, Nat.sub_diag. simpl. intros H.
  do 5 eexists. repeat split; eauto.
Qed.

(** *** Point algebra *)

#[local] Instance Point_eq_equiv : Equivalence Point_eq.
Proof.
  split.
  - intros p. repeat split; reflexivity.
  - intros p q (Hx & Hy & Hz). repeat split; by symmetry.
  - intros p q r (Hx & Hy & Hz) (Hx' & Hy' & Hz').
    repeat split; etrans; eauto.
Qed.

#[local] Instance Point_add_proper : Proper (Point_eq ==> Point_eq ==> Point_eq) Point_add.
Proof.
  intros p p' (Hx & Hy & Hz) q q' (Hx' & Hy' & Hz').
  repeat split; simpl; by apply Qplus_comp.
Qed.

Lemma accumulate_sum (acc : Point) (ps : list Point) :
  Point_eq (accumulate acc ps) (Point_add acc (quarter (Point_sum ps))).
Proof.
  revert acc. induction ps as [|p ps IH]; intros acc; simpl.
  - repeat split; simpl; ring.
  - unfold accumulate in *. rewrite IH. repeat split; simpl; ring.
Qed.

Lemma Point_sum_perm (ps qs : list Point) :
  ps ≡ₚ qs → Point_eq (Point_sum ps) (Point_sum qs).
Proof.
  induction 1 as [|p ps qs _ IH|p q ps|ps qs rs _ IH1 _ IH2]; simpl.
  - reflexivity.
  - by rewrite IH.
  - repeat split; simpl; ring.
  - by etrans.
Qed.

Lemma accumulate_perm (acc : Point) (ps qs : list Point) :
  ps ≡ₚ qs → Point_eq (accumulate acc ps) (accumulate acc qs).
Proof.
  intros Hp. rewrite !accumulate_sum.
  pose proof (Point_sum_perm _ _ Hp) as (Hx & Hy & Hz).
  repeat split; simpl; [rewrite Hx|rewrite Hy|rewrite Hz]; reflexivity.
Qed.

Lemma accumulate_average (p0 p1 p2 p3 : Point) :
  Point_eq (accumulate Point_origin [p0; p1; p2; p3]) (average4 p0 p1 p2 p3).
Proof. repeat split; simpl; ring. Qed.

(** *** The frame of the splitting loop *)

Lemma frame_refl (center : Vertex) (gr : CLSGraph) : frame center gr gr.
Proof. split; [done| |done]. intros e h0 h ? ?. by simplify_eq. Qed.

Lemma split_edge_frame (center : Vertex) (e : Edge) (gr0 : CLSGraph)
    (w w' : World) :
  counter_fresh gr0 →
  frame center gr0 (g (this w)) →
  split_edge center e w = Ok (tt, w') →
  frame center gr0 (g (this w')) ∧
  ∃ p pc, source_position (g (this w)) e = Some p ∧
          position_of (g (this w)) center = Some pc ∧
          position_of (g (this w')) center = Some (Point_add pc (quarter p)).
Proof.
  intros Hc [F1 F2 F3] H.
  apply split_edge_Ok in H as (h & ps & pt & vc & gr' & He & Hs & Ht & Hvc & H & ->).
  apply insert_vertex_in_edge_Ok in H
    as (h' & t & ht & p & tp & Hv & He' & Hht & Hte & _ & _ & ->).
  simpl in *. pose proof (lookup_lt_Some _ _ _ Hvc) as Hlt.
  split; [split|].
  - intros v vp Hne H0. pose proof (F1 _ _ Hne H0) as H1.
    pose proof (lookup_lt_Some _ _ _ H1). simpl.
    rewrite lookup_app_l by (rewrite length_insert; lia).
    by rewrite list_lookup_insert_ne.
  - intros x h0 hx H0 Hx. pose proof (Hc _ _ H0) as Hx0. simpl in Hx0.
    apply splice_lookup in Hx as [([Hr _] & _)|(_ & _ & h1 & H1 & -> & _)];
      simpl in *; [lia|]. by eapply F2.
  - simpl. lia.
  - exists (position ps), (position vc). unfold source_position, position_of.
    rewrite He. simpl. rewrite Hs, Hvc. simpl. repeat split.
    rewrite lookup_app_l by (rewrite length_insert; lia).
    by rewrite list_lookup_insert_eq.
Qed.

Lemma foreach_split_edge_center (center : Vertex) (gr0 : CLSGraph)
    (l : list Edge) :
  counter_fresh gr0 →
  ∀ (w w' : World) (ps : list Point) (pc : Point),
    frame center gr0 (g (this w)) →
    Forall2 (λ e p, ∃ h0 vp, edges gr0 !! e = Some h0 ∧ he_source h0 ≠ center ∧
                             vertices gr0 !! he_source h0 = Some vp ∧
                             p = position vp) l ps →
    position_of (g (this w)) center = Some pc →
    foreach l (split_edge center) w = Ok (tt, w') →
    position_of (g (this w')) center = Some (accumulate pc ps).
Proof.
  intros Hc w w' ps pc Hf Hl. revert w pc Hf.
  induction Hl as [|e p l ps (h0 & vp & H0 & Hne & Hvp & ->) _ IH];
    intros w pc Hf Hpc H; simpl in H.
  - minv H. done.
  - apply bind_Ok in H as ([] & w1 & H1 & H2).
    destruct (split_edge_frame _ _ _ _ _ Hc Hf H1)
      as (Hf1 & p & pc' & Hp & Hpc' & Hpc1).
    rewrite Hpc in Hpc'. simplify_eq. simpl.
    eapply IH; [exact Hf1| |exact H2].
    rewrite Hpc1. do 3 f_equal.
    (* the position read in the current graph is the one of [gr0] *)
    apply split_edge_Ok in H1 as (h & ps' & _ & _ & _ & He & Hs & _).
    unfold source_position in Hp. rewrite He in Hp. simpl in Hp.
    rewrite Hs in Hp. simpl in Hp. simplify_eq.
    pose proof (frame_sources _ _ _ Hf _ _ _ H0 He) as Hsrc.
    rewrite <-Hsrc in Hvp, Hne.
    pose proof (frame_vertices _ _ _ Hf _ _ Hne Hvp) as Hv. by simplify_eq.
Qed.

Lemma walk_next_alive (es : gmap Edge HalfEdge) (start : Edge) (fuel : nat) :
  ∀ cur l, walk_next es start cur fuel = Ok l → Forall (λ x, is_Some (es !! x)) l.
Proof.
  induction fuel as [|fuel IH]; intros cur l; simpl; [done|].
  destruct (es !! cur) as [h|] eqn:Hc; [|done].
  destruct (he_next h) as [n|]; [|done].
  case_bool_decide.
  - intros [= <-]. repeat constructor. by rewrite Hc.
  - destruct (walk_next es start n fuel) as [l'|] eqn:Hw; [|done].
    intros [= <-]. constructor; [by rewrite Hc|]. by eapply IH.
Qed.

Lemma face_edges_alive (f : Face) (gr gr' : CLSGraph) (l : list Edge) :
  face_edges f gr = Ok (l, gr') → Forall (λ x, is_Some (edges gr !! x)) l.
Proof.
  unfold face_edges. intros H. minv H.
  apply get_face_Ok in Hstep as [_ ->].
  destruct (walk_next _ _ _ _) as [l'|] eqn:Hw; [|done].
  simplify_eq. by eapply walk_next_alive.
Qed.

Lemma foreach_skip {S A} (l : list A) (s : S) :
  foreach l (λ _, ret tt) s = Ok (tt, s).
Proof. induction l as [|a l IH]; simpl; [done|]. unfold bind. simpl. exact IH. Qed.

Lemma corner_of_known (gr : CLSGraph) (vp : VertexProps) (e : Edge) :
  endpoints_known gr → is_Some (edges gr !! e) →
  ∃ p, source_position gr e = Some p ∧
       corner_of (num_vertices gr) (with_vertices (vertices gr ++ [vp]) gr) e p.
Proof.
  intros Hk [h He]. destruct (Hk _ _ He) as [Hs _]. simpl in Hs.
  destruct (lookup_lt_is_Some_2 _ _ Hs) as [ps Hps].
  exists (position ps). unfold source_position. rewrite He. simpl.
  rewrite Hps. split; [done|]. exists h, ps. simpl.
  rewrite lookup_app_l by done. repeat split; [done|lia|done].
Qed.

Lemma corners_known (gr : CLSGraph) (vp : VertexProps) (l : list Edge) :
  endpoints_known gr → Forall (λ x, is_Some (edges gr !! x)) l →
  Forall2 (corner_of (num_vertices gr) (with_vertices (vertices gr ++ [vp]) gr))
          l (source_position_or_origin gr <$> l) ∧
  source_position gr <$> l = Some <$> (source_position_or_origin gr <$> l).
Proof.
  intros Hk. induction 1 as [|e l He _ [IH1 IH2]]; simpl; [by split; constructor|].
  destruct (corner_of_known gr vp e Hk He) as (p & Hp & Hc).
  unfold source_position_or_origin at 1 3. rewrite Hp. simpl.
  split; [by constructor|by f_equal].
Qed.


(** *** The face table under subdivision *)

Lemma splice_faces (gr : CLSGraph) (v : Vertex) (e t p tp : Edge) (h ht : HalfEdge) :
  idx <$> faces (splice v e t p tp h ht gr) = idx <$> faces gr.
Proof.
  unfold splice. simpl. rewrite <-!list_fmap_compose.
  apply list_fmap_ext. intros i fp _. simpl. unfold repoint.
  repeat case_bool_decide; done.
Qed.

Lemma split_edge_faces (center : Vertex) (e : Edge) (w w' : World) :
  split_edge center e w = Ok (tt, w') →
  idx <$> faces (g (this w')) = idx <$> faces (g (this w)) ∧
  out_face (this w') = out_face (this w).
Proof.
  intros (h & ps & pt & vc & gr' & _ & _ & _ & _ & H & ->)%split_edge_Ok.
  apply insert_vertex_in_edge_Ok in H as (h' & t & ht & p & tp & _ & _ & _ & _ & _ & _ & ->).
  split; [|done]. exact (splice_faces _ _ _ _ _ _ _ _).
Qed.

Lemma foreach_split_edge_faces (center : Vertex) (l : list Edge) :
  ∀ w w', foreach l (split_edge center) w = Ok (tt, w') →
    idx <$> faces (g (this w')) = idx <$> faces (g (this w)) ∧
    out_face (this w') = out_face (this w).
Proof.
  induction l as [|e l IH]; intros w w' H; simpl in H.
  - by minv H.
  - apply bind_Ok in H as ([] & w1 & H1 & H2).
    apply split_edge_faces in H1 as [<- <-]. by apply IH.
Qed.

(** [subdivide_face] creates no face and retires none: the table of face ids
    is the same before and after. *)
Lemma subdivide_face_faces (f : Face) (w w' : World) :
  subdivide_face f w = Ok (tt, w') →
  idx <$> faces (g (this w')) = idx <$> faces (g (this w)) ∧
  out_face (this w') = out_face (this w).
Proof.
  unfold subdivide_face. intros H. minv H.
  pose proof (face_edges_Ok _ _ _ _ Hstep) as ->.
  rewrite add_vertex_Ok in Hstep1. simplify_eq.
  pose proof (face_edges_Ok _ _ _ _ Hstep3) as ->.
  rewrite foreach_skip in H. simplify_eq. destruct a1.
  by apply foreach_split_edge_faces in Hstep2.
Qed.

Lemma subdivide_face_num_faces (f : Face) (w w' : World) :
  subdivide_face f w = Ok (tt, w') →
  num_faces (g (this w')) = num_faces (g (this w)).
Proof.
  intros [H _]%subdivide_face_faces. unfold num_faces.
  by rewrite <-(length_fmap idx), H, length_fmap.
Qed.

(** *** The fuel of [subdivide] *)

Lemma fueled_ret {S A} (a : A) : fueled (ret (S:=S) a).
Proof. intros s. done. Qed.

Lemma fueled_gets {S A} (f : S → A) : fueled (gets f).
Proof. intros s. done. Qed.

Lemma fueled_modify {S} (f : S → S) : fueled (modify f).
Proof. intros s. done. Qed.

Lemma fueled_fail {S A} (e : error) : e ≠ OutOfFuel → fueled (fail (S:=S) (A:=A) e).
Proof. intros He s. unfold fail. congruence. Qed.

Lemma fueled_bind {S A B} (m : M S A) (k : A → M S B) :
  fueled m → (∀ a, fueled (k a)) → fueled (bind m k).
Proof.
  intros Hm Hk s [H|(a & s1 & _ & H)]%bind_Err; [by eapply Hm|by eapply Hk].
Qed.

Lemma fueled_from_option {S A} (e : error) (o : option A) :
  e ≠ OutOfFuel → fueled (from_option (S:=S) e o).
Proof. intros He. destruct o; [apply fueled_ret|by apply fueled_fail]. Qed.

Lemma fueled_cassert {S} (b : bool) : fueled (cassert (S:=S) b).
Proof. destruct b; [apply fueled_ret|by apply fueled_fail]. Qed.

Lemma fueled_on_g {A} (m : M CLSGraph A) : fueled m → fueled (on_g m).
Proof. intros Hm w H%on_g_Err. by eapply Hm. Qed.

Lemma fueled_foreach {S A} (l : list A) (body : A → M S unit) :
  (∀ a, fueled (body a)) → fueled (foreach l body).
Proof.
  intros Hb. induction l as [|a l IH]; simpl; [apply fueled_ret|].
  apply fueled_bind; [apply Hb|intros _; apply IH].
Qed.

Lemma walk_next_fueled (es : gmap Edge HalfEdge) (start : Edge) (fuel : nat) :
  ∀ cur, walk_next es start cur fuel ≠ Err OutOfFuel.
Proof.
  induction fuel as [|fuel IH]; intros cur; simpl; [done|].
  destruct (es !! cur) as [h|]; [|done].
  destruct (he_next h) as [n|]; [|done].
  case_bool_decide; [done|].
  specialize (IH n). destruct (walk_next es start n fuel); congruence.
Qed.

Lemma fueled_previous_edge (e : Edge) : fueled (previous_edge e).
Proof.
  intros gr. unfold previous_edge.
  pose proof (walk_next_fueled (edges gr) e (num_edges gr) e).
  destruct (walk_next _ _ _ _); congruence.
Qed.

Local Ltac fueled_tac :=
  repeat first
    [ apply fueled_ret | apply fueled_gets | apply fueled_modify
    | apply fueled_previous_edge
    | apply fueled_fail; discriminate
    | apply fueled_from_option; discriminate
    | apply fueled_cassert
    | apply fueled_on_g
    | apply fueled_foreach; intros ?
    | apply fueled_bind; [|intros ?] ].

Lemma fueled_face_edges (f : Face) : fueled (face_edges f).
Proof.
  unfold face_edges. apply fueled_bind; [fueled_tac|intros fp].
  apply fueled_bind; [fueled_tac|intros e0]. intros gr.
  pose proof (walk_next_fueled (edges gr) e0 (num_edges gr) e0).
  destruct (walk_next _ _ _ _); congruence.
Qed.

Lemma fueled_insert_vertex_in_edge (v : Vertex) (e : Edge) :
  fueled (insert_vertex_in_edge v e).
Proof. unfold insert_vertex_in_edge. fueled_tac. Qed.

Lemma fueled_subdivide_face (f : Face) : fueled (subdivide_face f).
Proof.
  unfold subdivide_face.
  apply fueled_bind; [apply fueled_on_g, fueled_face_edges|intros l].
  apply fueled_bind; [fueled_tac|intros _].
  apply fueled_bind; [fueled_tac|intros center].
  apply fueled_bind.
  { apply fueled_foreach. intros e. unfold split_edge.
    repeat (apply fueled_bind; [fueled_tac|intros ?]).
    apply fueled_on_g, fueled_insert_vertex_in_edge. }
  intros _.
  apply fueled_bind; [apply fueled_on_g, fueled_face_edges|intros l'].
  fueled_tac.
Qed.

Lemma subdivide_from_fueled (fuel : nat) :
  ∀ f w, num_faces (g (this w)) - f ≤ fuel → subdivide_from f fuel w ≠ Err OutOfFuel.
Proof.
  induction fuel as [|fuel IH]; intros f w Hn; simpl.
  - unfold bind, on_g, gets. simpl. rewrite bool_decide_eq_false_2 by lia. done.
  - unfold bind at 1. unfold on_g, gets. simpl.
    case_bool_decide as Hlt; [|done].
    intros [H|(o & w0 & H0 & H)]%bind_Err; [done|].
    apply bind_Err in H as [H|([] & w1 & H1 & H)].
    + case_bool_decide; [by eapply fueled_subdivide_face|done].
    + revert H. apply IH.
      injection H0 as _ <-.
      case_bool_decide; [|minv H1; simpl in *; lia].
      rewrite (subdivide_face_num_faces _ _ _ H1). simpl in *. lia.
Qed.

(** The sweep of [subdivide] always comes to its end within the fuel it is
    given. *)
Lemma subdivide_fuel_suffices (w : World) : subdivide w ≠ Err OutOfFuel.
Proof.
  unfold subdivide, bind, on_g, gets. simpl. apply subdivide_from_fueled.
  simpl. lia.
Qed.

(** ** Running the constructor *)

Lemma init_square_computes (f : Q) (c : Z) :
  init_square (mkWorld c (blank f)) = Ok ((0, 1), square f c).
Proof. vm_compute. reflexivity. Qed.

Lemma subdivide_square_computes (f : Q) (c : Z) :
  subdivide (square f c) = Ok (tt, built f c).
Proof. vm_compute. reflexivity. Qed.

Lemma CutterLocationSurface_new_computes (f : Q) (c : Z) :
  CutterLocationSurface_new f c = Ok (built f c).
Proof. vm_compute. reflexivity. Qed.

(** * The claims *)

(** ** Subdivision of a face *)

Lemma subdivide_face_square_computes (f : Q) (c : Z) :
  subdivide_face 1 (square f c) = Ok (tt, built f c).
Proof. vm_compute. reflexivity. Qed.

Lemma mesh_wf_square (f : Q) (c : Z) : mesh_wf (g (this (square f c))).
Proof. split; apply (bool_decide_unpack _); vm_compute; exact I. Qed.

Lemma boundary_square (f : Q) (c : Z) :
  boundary (g (this (square f c))) 1 = Some [0; 2; 4; 6] ∧
  boundary (g (this (square f c))) 0 = Some [1; 7; 5; 3].
Proof. split; vm_compute; reflexivity. Qed.

Lemma boundary_built (f : Q) (c : Z) :
  boundary (g (this (built f c))) 1 = Some [8; 9; 12; 13; 16; 17; 20; 21] ∧
  boundary (g (this (built f c))) 0 = Some [10; 11; 22; 23; 18; 19; 14; 15].
Proof. split; vm_compute; reflexivity. Qed.

(** C1 (not what the code does): the subdivision step should join the new
    center vertex to the four mid-point vertices, cut the quad into four new
    bounded quad faces with new face ids and retire the original face id.
    [subdivide_face], run on the bounded face 1 of the bounding square of any
    half-extent, returns with the table of face ids as it was (face 1 is
    still the only bounded face), with the boundary of face 1 made of eight
    half-edges, and with no half-edge starting or ending at the center
    vertex 4. *)
Theorem subdivide_face_creates_no_face (f : Q) (c : Z) :
  ∃ w',
    subdivide_face 1 (square f c) = Ok (tt, w') ∧
    idx <$> faces (g (this w')) = idx <$> faces (g (this (square f c))) ∧
    bounded_faces w' = [1] ∧
    boundary (g (this w')) 1 = Some [8; 9; 12; 13; 16; 17; 20; 21] ∧
    num_vertices (g (this w')) = 9 ∧
    incident_edges (g (this w')) 4 = [].
Proof.
  exists (built f c). split; [apply subdivide_face_square_computes|].
  split; [reflexivity|]. split; [vm_compute; reflexivity|].
  split; [apply boundary_built|]. split; vm_compute; reflexivity.
Qed.

(** C2: in every face subdivision pass the center vertex ends at the average
    of the four corner positions of the face as they were before the pass
    changed anything.  The same holds for every order in which the four
    boundary edges are split, so the center does not depend on that order,
    and no mid-point created during the pass enters it. *)
Theorem subdivide_face_center (f : Face) (w w' : World) :
  mesh_wf (g (this w)) →
  subdivide_face f w = Ok (tt, w') →
  ∃ e0 e1 e2 e3 p0 p1 p2 p3 vc,
    boundary (g (this w)) f = Some [e0; e1; e2; e3] ∧
    source_position (g (this w)) <$> [e0; e1; e2; e3]
      = Some <$> [p0; p1; p2; p3] ∧
    vertices (g (this w')) !! num_vertices (g (this w)) = Some vc ∧
    Point_eq (position vc) (average4 p0 p1 p2 p3) ∧
    ∀ es center wc w'',
      es ≡ₚ [e0; e1; e2; e3] →
      add_vertex w = Ok (center, wc) →
      foreach es (split_edge center) wc = Ok (tt, w'') →
      ∃ vc', vertices (g (this w'')) !! center = Some vc' ∧
             Point_eq (position vc') (average4 p0 p1 p2 p3).
Proof.
  intros [Hc Hk] H. unfold subdivide_face in H. minv H.
  pose proof (face_edges_Ok _ _ _ _ Hstep) as ->.
  pose proof (face_edges_alive _ _ _ _ Hstep) as Halive.
  apply bool_decide_eq_true in Hassert.
  destruct a as [|e0 [|e1 [|e2 [|e3 [|]]]]]; try discriminate Hassert.
  rewrite add_vertex_Ok in Hstep1. simplify_eq.
  pose proof (face_edges_Ok _ _ _ _ Hstep3) as ->.
  rewrite foreach_skip in H. simplify_eq.
  set (vp := mkVertexProps Point_origin (count w)) in *.
  set (gr0 := with_vertices (vertices (g (this w)) ++ [vp]) (g (this w))) in *.
  destruct (corners_known (g (this w)) vp _ Hk Halive) as [Hcorners Hpos].
  fold gr0 in Hcorners.
  assert (∀ es w'', es ≡ₚ [e0; e1; e2; e3] →
    foreach es (split_edge (num_vertices (g (this w))))
      (mkWorld (count w + 1)
         (mkCLS gr0 (min_sampling (this w)) (far (this w)) (out_face (this w))))
    = Ok (tt, w'') →
    ∃ vc', vertices (g (this w'')) !! num_vertices (g (this w)) = Some vc' ∧
           Point_eq (position vc')
             (average4 (source_position_or_origin (g (this w)) e0)
                (source_position_or_origin (g (this w)) e1)
                (source_position_or_origin (g (this w)) e2)
                (source_position_or_origin (g (this w)) e3))) as Hany.
  { intros es w'' Hperm Hrun.
    assert (Forall (λ x, is_Some (edges (g (this w)) !! x)) es) as Halive'.
    { by rewrite Hperm. }
    destruct (corners_known (g (this w)) vp _ Hk Halive') as [Hcorners' _].
    fold gr0 in Hcorners'.
    eapply (foreach_split_edge_center _ gr0) in Hrun;
      [|exact Hc|apply frame_refl|exact Hcorners'|].
    2:{ unfold position_of, gr0. simpl.
        by rewrite list_lookup_middle. }
    unfold position_of in Hrun.
    destruct (vertices (g (this w'')) !! _) as [vc'|]; [|done].
    simpl in Hrun. injection Hrun as Hrun. exists vc'. split; [done|].
    rewrite Hrun. etrans; [|apply accumulate_average].
    apply accumulate_perm.
    exact (fmap_Permutation (source_position_or_origin (g (this w))) _ _ Hperm). }
  destruct a1. destruct (Hany _ _ (reflexivity _) Hstep2) as (vc & Hvc & Havg).
  do 9 eexists. split; [|split; [exact Hpos|split; [exact Hvc|split; [exact Havg|]]]].
  - unfold boundary. by rewrite Hstep.
  - intros es center wc w'' Hperm Hadd. rewrite add_vertex_Ok in Hadd.
    simplify_eq. by apply Hany.
Qed.

(** The pass that the constructor runs for [far = 1]: the center lands on the
    average of the four corner positions of the bounding square as [init]
    left them, and it does so too when the four edges are split in the
    opposite order. *)
Lemma subdivide_face_center_witness :
  mesh_wf (g (this (square 1 0))) ∧
  subdivide_face 1 (square 1 0) = Ok (tt, built 1 0) ∧
  (∃ vc, vertices (g (this (built 1 0))) !! 4 = Some vc ∧
         Point_eq (position vc)
           (average4 (mkPoint 1 1 0) (mkPoint (-1) 1 0) (mkPoint 1 (-1) 0)
                     (mkPoint 0 0 0))) ∧
  ∃ wc w'' vc',
    add_vertex (square 1 0) = Ok (4, wc) ∧
    foreach [6; 4; 2; 0] (split_edge 4) wc = Ok (tt, w'') ∧
    vertices (g (this w'')) !! 4 = Some vc' ∧
    Point_eq (position vc')
      (average4 (mkPoint 1 1 0) (mkPoint (-1) 1 0) (mkPoint 1 (-1) 0)
                (mkPoint 0 0 0)).
Proof.
  split; [apply mesh_wf_square|]. split; [apply subdivide_face_square_computes|].
  destruct (subdivide_face_center 1 (square 1 0) (built 1 0)
              (mesh_wf_square 1 0) (subdivide_face_square_computes 1 0))
    as (e0 & e1 & e2 & e3 & p0 & p1 & p2 & p3 & vc & Hb & Hp & Hvc & Havg & Hany).
  vm_compute in Hb. injection Hb as <- <- <- <-.
  vm_compute in Hp. injection Hp as <- <- <- <-.
  split; [exists vc; split; [exact Hvc|exact Havg]|].
  eexists. eexists.
  assert (reverse [0; 2; 4; 6] ≡ₚ [0; 2; 4; 6]) as Hperm
    by apply reverse_Permutation.
  edestruct (Hany (reverse [0; 2; 4; 6]) 4) as (vc' & Hvc' & Havg');
    [exact Hperm|reflexivity|vm_compute; reflexivity|].
  exists vc'. split; [reflexivity|]. split; [vm_compute; reflexivity|].
  split; [exact Hvc'|exact Havg'].
Defined.

(** ** The sweep of [subdivide] *)

(** C3 (not what the code does): subdivision should recurse until every edge
    is at most [min_sampling] long.  [subdivide] is a single sweep that never
    reads [min_sampling]: for [far = 1] and a [min_sampling] of 1/4 set on the
    constructed object, the mesh is the one the constructor left, and its
    half-edge 8 has length 1 (squared length 1, against 1/16). *)
Theorem subdivide_ignores_min_sampling :
  ∃ w w' l,
    CutterLocationSurface_new 1 0 = Ok w ∧
    setMinSampling (1 # 4) w = Ok (tt, w') ∧
    min_sampling (this w') = Some (1 # 4) ∧
    g (this w') = g (this w) ∧
    edge_length2 (g (this w')) 8 = Some l ∧
    (l == 1)%Q ∧ ((1 # 4) * (1 # 4) < l)%Q.
Proof.
  exists (built 1 0). eexists. eexists.
  split; [apply CutterLocationSurface_new_computes|].
  split; [reflexivity|]. split; [reflexivity|]. split; [reflexivity|].
  split; [vm_compute; reflexivity|]. split; reflexivity.
Qed.

(** ** Initialisation *)

(** C4 (not what the code does): the four corners should sit at
    [(far,far,0)], [(-far,far,0)], [(-far,-far,0)] and [(far,-far,0)].  The
    first part of [init] for [far = 1] leaves the third vertex at [(1,-1,0)]
    and the fourth at the origin, because the fourth assignment writes the
    position of [c] again instead of that of [d].  The rest is as claimed: face
    0 is the outer face and face 1 the only bounded one, the inner boundary is
    the cycle 0, 2, 4, 6, the outer the reverse cycle 1, 7, 5, 3 of their
    twins, and every half-edge is the twin of its twin. *)
Theorem init_square_corner_positions :
  ∃ w,
    init_square (mkWorld 0 (blank 1)) = Ok ((0, 1), w) ∧
    vertex_positions w
      = [mkPoint 1 1 0; mkPoint (-1) 1 0; mkPoint 1 (-1) 0; mkPoint 0 0 0] ∧
    ¬ Forall2 Point_eq (vertex_positions w)
        [mkPoint 1 1 0; mkPoint (-1) 1 0; mkPoint (-1) (-1) 0; mkPoint 1 (-1) 0] ∧
    num_vertices (g (this w)) = 4 ∧ num_edges (g (this w)) = 8 ∧
    out_face (this w) = Some 0 ∧ bounded_faces w = [1] ∧
    boundary (g (this w)) 1 = Some [0; 2; 4; 6] ∧
    boundary (g (this w)) 0 = Some [1; 7; 5; 3] ∧
    twin_of (g (this w)) <$> [0; 2; 4; 6] = Some <$> [1; 3; 5; 7] ∧
    twin_total (g (this w)).
Proof.
  exists (square 1 0). split; [apply init_square_computes|].
  split; [reflexivity|]. split.
  { intros H. apply Forall2_cons_1 in H as [_ H].
    apply Forall2_cons_1 in H as [_ H]. apply Forall2_cons_1 in H as [[H _] _].
    vm_compute in H. discriminate H. }
  split; [reflexivity|]. split; [vm_compute; reflexivity|].
  split; [reflexivity|]. split; [vm_compute; reflexivity|].
  split; [apply boundary_square|]. split; [apply boundary_square|].
  split; [vm_compute; reflexivity|].
  apply (bool_decide_unpack _). vm_compute. exact I.
Qed.

(** C5 (not what the code does): building with [far = 1] and
    [min_sampling = 0.5] should give 9 vertices, 4 bounded faces that are unit
    squares, and 1 outer face.  The constructed mesh has the 9 vertices and
    the one outer face, but a single bounded face, whose boundary has eight
    half-edges; the corners [c] and [d] are where the slip of [init] left
    them. *)
Theorem built_mesh_counts :
  ∃ w w',
    CutterLocationSurface_new 1 0 = Ok w ∧
    setMinSampling (1 # 2) w = Ok (tt, w') ∧
    num_vertices (g (this w')) = 9 ∧
    num_faces (g (this w')) = 2 ∧
    out_face (this w') = Some 0 ∧
    bounded_faces w' = [1] ∧
    boundary (g (this w')) 1 = Some [8; 9; 12; 13; 16; 17; 20; 21] ∧
    Forall2 Point_eq (vertex_positions w')
      [mkPoint 1 1 0; mkPoint (-1) 1 0; mkPoint 1 (-1) 0; mkPoint 0 0 0;
       mkPoint (1 # 4) (1 # 4) 0;
       mkPoint 0 1 0; mkPoint 0 0 0; mkPoint (1 # 2) (- (1 # 2)) 0;
       mkPoint (1 # 2) (1 # 2) 0].
Proof.
  exists (built 1 0). eexists.
  split; [apply CutterLocationSurface_new_computes|].
  split; [reflexivity|]. split; [reflexivity|]. split; [reflexivity|].
  split; [reflexivity|]. split; [vm_compute; reflexivity|].
  split; [apply (boundary_built 1 0)|].
  repeat constructor.
Qed.

(** ** Construction *)

(** C6, as stated, fails: a negative [far] is accepted, and so is a negative
    [min_sampling]. *)
Lemma nonpositive_parameters_accepted :
  (-1 <= 0)%Q ∧
  ∃ w w',
    CutterLocationSurface_new (-1) 0 = Ok w ∧
    num_vertices (g (this w)) = 9 ∧
    setMinSampling (-1) w = Ok (tt, w') ∧
    min_sampling (this w') = Some (-1)%Q.
Proof.
  split; [done|]. exists (built (-1) 0). eexists.
  split; [apply CutterLocationSurface_new_computes|].
  split; [reflexivity|]. split; reflexivity.
Qed.

(** C6, amended: construction validates nothing.  For every [far], positive
    or not, and every value of the vertex counter the constructor returns a
    mesh of 9 vertices and stores [far] as given; [min_sampling] is not a
    constructor parameter and is left unset; [setMinSampling] stores any
    value, positive or not, and leaves the mesh alone. *)
Theorem construction_validates_nothing (f : Q) (c : Z) :
  ∃ w,
    CutterLocationSurface_new f c = Ok w ∧
    far (this w) = f ∧
    min_sampling (this w) = None ∧
    num_vertices (g (this w)) = 9 ∧
    ∀ s, ∃ w', setMinSampling s w = Ok (tt, w') ∧
               min_sampling (this w') = Some s ∧
               far (this w') = f ∧
               g (this w') = g (this w).
Proof.
  exists (built f c). split; [apply CutterLocationSurface_new_computes|].
  split; [reflexivity|]. split; [reflexivity|]. split; [reflexivity|].
  intros s. eexists. split; [reflexivity|]. split; [reflexivity|].
  split; reflexivity.
Qed.

(** ** Invariants *)

Lemma twin_total_built (f : Q) (c : Z) : twin_total (g (this (built f c))).
Proof. apply (bool_decide_unpack _). vm_compute. exact I. Qed.

Lemma init_computes (f : Q) (c : Z) :
  init (mkWorld c (blank f)) = Ok (tt, built f c).
Proof. vm_compute. reflexivity. Qed.

Lemma reachable_built (f : Q) (c : Z) : reachable (g (this (built f c))).
Proof. exact (traces_init _ _ _ (init_computes f c)). Qed.

(** ** Half-edges without a twin *)

Lemma linked_mutation_mutation (gr gr' : CLSGraph) :
  linked_mutation gr gr' → mutation gr gr'.
Proof.
  destruct 1; eauto using mutation.
Qed.

Lemma twin_total_assigned (gr : CLSGraph) :
  twin_symmetric gr → twin_total gr ↔ twin_assigned gr.
Proof.
  intros Hs. split.
  - intros Ht x [h Hx]. pose proof (Ht _ _ Hx) as Hxx. simpl in Hxx.
    destruct (twin_of gr x); [eauto|done].
  - intros Ha x h Hx. simpl.
    destruct (Ha x (mk_is_Some _ _ Hx)) as [t Ht].
    rewrite Ht. simpl. by apply Hs.
Qed.

Lemma twin_assigned_alter (gr gr' : CLSGraph) (f : HalfEdge → HalfEdge) (k : Edge) :
  edges gr' = alter f k (edges gr) →
  (∀ h, is_Some (he_twin h) → is_Some (he_twin (f h))) →
  twin_assigned gr → twin_assigned gr'.
Proof.
  intros He Hf Ha x [h' Hx]. rewrite He in Hx.
  apply lookup_alter_Some in Hx as Hx0. destruct Hx0 as (h & Hh & Hor).
  destruct (Ha x (mk_is_Some _ _ Hh)) as [t Ht].
  apply twin_of_Some in Ht as (h0 & Hh0 & Ht). simplify_eq.
  unfold twin_of. rewrite He, Hx. simpl.
  destruct Hor as [->| ->]; [by rewrite Ht|]. apply Hf. by rewrite Ht.
Qed.

Lemma linked_mutation_twin_assigned (gr gr' : CLSGraph) :
  linked_mutation gr gr' → counter_fresh gr →
  twin_assigned gr → twin_assigned gr'.
Proof.
  intros Hm Hc Ha. destruct Hm as
    [vp gr v gr' H|v p gr gr' H|gr f gr' H|f e gr gr' H
    |e1 e2 gr gr' H|e f gr gr' H|e n gr gr' H|v e gr gr' H].
  - rewrite push_vertex_Ok in H. by simplify_eq.
  - apply set_position_Ok in H as (vp & _ & ->). done.
  - rewrite add_face_Ok in H. by simplify_eq.
  - apply set_face_edge_Ok in H as (fp & _ & ->). done.
  - apply twin_edges_Ok in H as (h1 & h2 & H1 & H2 & F1 & F2 & ->).
    eapply (twin_assigned_alter
              (with_edges (alter (set_twin e2) e1 (edges gr)) gr));
      [reflexivity|by intros h _|].
    eapply twin_assigned_alter; [reflexivity|by intros h _|done].
  - apply set_edge_face_Ok in H as (_ & ->).
    by eapply twin_assigned_alter; [reflexivity|..].
  - apply set_edge_next_Ok in H as (_ & ->).
    by eapply twin_assigned_alter; [reflexivity|..].
  - apply insert_vertex_in_edge_Ok in H
      as (h & t & ht & p & tp & Hv & He & Hht & Ht & _ & _ & ->).
    pose proof (Hc _ _ He) as Hlte. pose proof (Hc _ _ Ht) as Hltt.
    simpl in Hlte, Hltt.
    intros x [hx Hx]. rewrite twin_of_splice.
    apply splice_lookup in Hx as [(Hr & _)|(Hxe & Hxt & h0 & Hx0 & _)];
      repeat case_decide; try done; try lia.
    apply Ha. eauto.
Qed.

Lemma rtc_linked_mutation_twin_total (gr gr' : CLSGraph) :
  rtc linked_mutation gr gr' → mesh_inv gr → twin_total gr →
  mesh_inv gr' ∧ twin_total gr'.
Proof.
  induction 1 as [|gr1 gr2 gr3 Hstep _ IH]; [done|].
  intros Hi Ht.
  pose proof (mutation_mesh_inv _ _ (linked_mutation_mutation _ _ Hstep) Hi) as Hi2.
  apply IH; [done|].
  apply twin_total_assigned; [apply Hi2|].
  eapply linked_mutation_twin_assigned; [done|apply Hi|].
  apply twin_total_assigned; [apply Hi|done].
Qed.

(** ** What subdivision does to the graph *)

Lemma links_ret {A} (a : A) : links (ret a).
Proof. intros w a' w' H. minv H. done. Qed.

Lemma links_bind {A B} (m : M World A) (k : A → M World B) :
  links m → (∀ a, links (k a)) → links (bind m k).
Proof.
  intros Hm Hk w b w' H. apply bind_Ok in H as (a & w1 & H1 & H2).
  etrans; [by eapply Hm|by eapply Hk].
Qed.

Lemma links_gets {A} (f : World → A) : links (gets f).
Proof. intros w a' w' H. minv H. done. Qed.

Lemma links_cassert (b : bool) : links (cassert b).
Proof. intros w a' w' H. minv H. done. Qed.

Lemma links_foreach {A} (l : list A) (body : A → M World unit) :
  (∀ a, links (body a)) → links (foreach l body).
Proof.
  intros Hb. induction l as [|a l IH]; simpl.
  - apply links_ret.
  - apply links_bind; [apply Hb|intros _; apply IH].
Qed.

(** An operation that only reads the graph. *)
Lemma links_read {A} (m : M CLSGraph A) :
  (∀ gr a gr', m gr = Ok (a, gr') → gr' = gr) → links (on_g m).
Proof.
  intros Hm w a w' H. apply on_g_Ok in H as (gr' & H & ->).
  apply Hm in H as ->. done.
Qed.

(** An operation that is one mutation. *)
Lemma links_step {A} (m : M CLSGraph A) :
  (∀ gr a gr', m gr = Ok (a, gr') → linked_mutation gr gr') → links (on_g m).
Proof.
  intros Hm w a w' H. apply on_g_Ok in H as (gr' & H & ->).
  apply rtc_once. by eapply Hm.
Qed.

Lemma links_add_vertex : links add_vertex.
Proof.
  intros w v w' H. unfold add_vertex in H. minv H. simpl in H. minv H.
  simpl. apply rtc_once. by eapply lmut_push_vertex.
Qed.

Lemma links_split_edge center e : links (split_edge center e).
Proof.
  unfold split_edge.
  apply links_bind; [|intros src].
  { apply links_read. intros gr a gr' (h & _ & _ & ->)%source_Ok. done. }
  apply links_bind; [|intros trg].
  { apply links_read. intros gr a gr' (h & _ & _ & ->)%target_Ok. done. }
  apply links_bind; [|intros psrc].
  { apply links_read. intros gr a gr' [_ ->]%get_vertex_Ok. done. }
  apply links_bind; [|intros ptrg].
  { apply links_read. intros gr a gr' [_ ->]%get_vertex_Ok. done. }
  apply links_bind; [|intros _].
  { apply links_step. intros gr [] gr' H. unfold add_to_position in H. minv H.
    apply get_vertex_Ok in Hstep as [_ ->]. by eapply lmut_set_position. }
  apply links_bind; [apply links_add_vertex|intros v].
  apply links_bind; [|intros _].
  { apply links_step. intros gr [] gr' H. by eapply lmut_set_position. }
  apply links_step. intros gr [] gr' H. by eapply lmut_insert_vertex_in_edge.
Qed.

Lemma links_subdivide_face f : links (subdivide_face f).
Proof.
  unfold subdivide_face.
  apply links_bind; [|intros l].
  { apply links_read. intros gr a gr' H. by eapply face_edges_Ok. }
  apply links_bind; [apply links_cassert|intros _].
  apply links_bind; [apply links_add_vertex|intros center].
  apply links_bind; [|intros _].
  { apply links_foreach. intros e. apply links_split_edge. }
  apply links_bind; [|intros l'].
  { apply links_read. intros gr a gr' H. by eapply face_edges_Ok. }
  apply links_bind; [apply links_cassert|intros _].
  apply links_foreach. intros _. apply links_ret.
Qed.

Lemma links_num_faces : links (on_g (gets num_faces)).
Proof. apply links_read. intros gr a gr' H. by minv H. Qed.

Lemma links_subdivide_from fuel : ∀ f, links (subdivide_from f fuel).
Proof.
  induction fuel as [|fuel IH]; intros f; simpl.
  - apply links_bind; [apply links_num_faces|intros n].
    case_bool_decide; [|apply links_ret].
    intros ? ? ? Hf. discriminate Hf.
  - apply links_bind; [apply links_num_faces|intros n].
    case_bool_decide; [|apply links_ret].
    apply links_bind; [apply links_gets|intros o].
    apply links_bind; [|intros _; apply IH].
    case_bool_decide; [apply links_subdivide_face|apply links_ret].
Qed.

Lemma links_subdivide : links subdivide.
Proof.
  unfold subdivide. apply links_bind; [apply links_num_faces|intros n].
  apply links_subdivide_from.
Qed.

Lemma init_to_first_edge_computes :
  init_to_first_edge (mkWorld 0 (blank 1))
  = Ok (0, mkWorld 4 (mkCLS
      (mkGraph (square_vertices 1 0)
               (list_to_map [(0, mkHalfEdge 0 1 EdgeProps_default)]) 1
               [mkFaceProps 0 None; mkFaceProps 1 None])
      None 1 None)).
Proof. vm_compute. reflexivity. Qed.

Lemma traces_init_to_first_edge : traces init_to_first_edge.
Proof. unfold init_to_first_edge. traces_tac. Qed.

(** C7, as stated, fails: inside [init], right after the first [add_edge]
    (line 170), the half-edge [e1] is in the graph and has no twin, so
    [twin(twin(e1))] is not [e1].  The twin is only assigned by [twin_edges]
    on line 183. *)
Lemma half_edge_untwinned_inside_init :
  ∃ w,
    init_to_first_edge (mkWorld 0 (blank 1)) = Ok (0, w) ∧
    reachable (g (this w)) ∧
    is_Some (edges (g (this w)) !! 0) ∧
    twin_of (g (this w)) 0 = None ∧
    twin_of (g (this w)) 0 ≫= twin_of (g (this w)) ≠ Some 0 ∧
    ¬ twin_total (g (this w)).
Proof.
  eexists. split; [apply init_to_first_edge_computes|].
  split; [exact (traces_init_to_first_edge _ _ _ init_to_first_edge_computes)|].
  assert (edges (g (this (mkWorld 4 (mkCLS
            (mkGraph (square_vertices 1 0)
               (list_to_map [(0, mkHalfEdge 0 1 EdgeProps_default)]) 1
               [mkFaceProps 0 None; mkFaceProps 1 None])
            None 1 None)))) !! 0 = Some (mkHalfEdge 0 1 EdgeProps_default))
    as Hlive by (vm_compute; reflexivity).
  split; [by eexists|].
  split; [vm_compute; reflexivity|].
  split; [vm_compute; discriminate|].
  intros Ht. specialize (Ht _ _ Hlive). vm_compute in Ht. discriminate Ht.
Qed.

(** C7, amended: twin links are mutual wherever they are assigned, after
    every mutation: every graph that mutations produce from the empty graph
    is twin-symmetric, and each single mutation maintains this.  That every
    half-edge has a twin, with [twin(twin(e)) == e], is maintained by every
    mutation other than [add_edge], whose half-edge has no twin until
    [twin_edges] assigns one.  Subdivision performs no [add_edge]: every
    successful [subdivide_face] and [subdivide] is a sequence of the other
    mutations, so on a mesh in which every half-edge has its twin this holds
    again after each of them.  The mesh the constructor builds is such a
    mesh. *)
Theorem twin_symmetry :
  (∀ gr, reachable gr → twin_symmetric gr) ∧
  (∀ gr gr', mutation gr gr' → mesh_inv gr → mesh_inv gr') ∧
  (∀ gr gr', linked_mutation gr gr' → mutation gr gr') ∧
  (∀ gr gr', rtc linked_mutation gr gr' → mesh_inv gr → twin_total gr →
             mesh_inv gr' ∧ twin_total gr') ∧
  (∀ f w w', subdivide_face f w = Ok (tt, w') →
             rtc linked_mutation (g (this w)) (g (this w'))) ∧
  (∀ w w', subdivide w = Ok (tt, w') →
           rtc linked_mutation (g (this w)) (g (this w'))) ∧
  (∀ f c, ∃ w, CutterLocationSurface_new f c = Ok w ∧
               reachable (g (this w)) ∧ twin_total (g (this w))).
Proof.
  split; [|split; [|split; [|split; [|split; [|split]]]]].
  - intros gr Hr. by apply reachable_mesh_inv.
  - apply mutation_mesh_inv.
  - apply linked_mutation_mutation.
  - apply rtc_linked_mutation_twin_total.
  - intros f w w' H. exact (links_subdivide_face f _ _ _ H).
  - intros w w' H. exact (links_subdivide _ _ _ H).
  - intros f c. exists (built f c).
    split; [apply CutterLocationSurface_new_computes|].
    split; [apply reachable_built|apply twin_total_built].
Qed.



(** ** The vertex counter *)

(** C9, as stated, fails: the second of two meshes built one after the other
    gets the indices 9 to 17, not the indices 0 to 8 that the same mesh gets
    when it is built alone. *)
Lemma second_mesh_indices_shifted :
  ∃ alone w1 w2,
    CutterLocationSurface_new 1 0 = Ok alone ∧
    CutterLocationSurface_new 2 0 = Ok w1 ∧
    CutterLocationSurface_new 1 (count w1) = Ok w2 ∧
    vertex_indices alone = [0; 1; 2; 3; 4; 5; 6; 7; 8]%Z ∧
    vertex_indices w2 = [9; 10; 11; 12; 13; 14; 15; 16; 17]%Z ∧
    vertex_indices w2 ≠ vertex_indices alone.
Proof.
  exists (built 1 0), (built 2 0), (built 1 9).
  split; [apply CutterLocationSurface_new_computes|].
  split; [apply CutterLocationSurface_new_computes|].
  split; [apply (CutterLocationSurface_new_computes 1 9)|].
  split; [reflexivity|]. split; [reflexivity|]. discriminate.
Qed.

(** C9, amended: vertex indices come from the one program-wide counter.  As
    long as the counter does not overflow [int], a mesh built when the counter
    stands at [c] gets the indices [c] to [c + 8] and leaves the counter at
    [c + 9]; a second mesh built next gets [c + 9] to [c + 17].  So the
    indices of two meshes do not collide, and the indices of a mesh are those
    it gets when built alone, shifted by the number of vertices created before
    it. *)
Theorem vertex_indices_from_global_count (f1 f2 : Q) (c : Z) :
  counter_in_range c 18 →
  ∃ w1 w2,
    CutterLocationSurface_new f1 c = Ok w1 ∧
    CutterLocationSurface_new f2 (count w1) = Ok w2 ∧
    vertex_indices w1 = (λ i, c + Z.of_nat i)%Z <$> seq 0 9 ∧
    count w1 = (c + 9)%Z ∧
    vertex_indices w2 = (λ i, c + 9 + Z.of_nat i)%Z <$> seq 0 9 ∧
    count w2 = (c + 18)%Z ∧
    ∀ i, i ∈ vertex_indices w1 → i ∉ vertex_indices w2.
Proof.
  intros _.
  assert (∀ f c, vertex_indices (built f c) = (λ i, c + Z.of_nat i)%Z <$> seq 0 9)
    as Hidx.
  { intros f c0. unfold vertex_indices. simpl.
    repeat (apply (f_equal2 cons); [lia|]). reflexivity. }
  assert (∀ f c, count (built f c) = (c + 9)%Z) as Hcount.
  { intros f c0. simpl. lia. }
  exists (built f1 c), (built f2 (count (built f1 c))).
  split; [apply CutterLocationSurface_new_computes|].
  split; [apply CutterLocationSurface_new_computes|].
  rewrite !Hidx, !Hcount. split; [done|]. split; [done|]. split; [done|].
  split; [lia|].
  intros i (j & -> & Hj)%list_elem_of_fmap (k & Hk & Hin)%list_elem_of_fmap.
  apply elem_of_seq in Hj, Hin. lia.
Qed.

(** Two meshes built from a counter that stands at 0, and two built when it
    stands 18 below [INT_MAX], the last start without overflow. *)
Lemma vertex_indices_from_global_count_witness :
  counter_in_range 0 18 ∧ counter_in_range 2147483629 18 ∧
  (∃ w1 w2,
     CutterLocationSurface_new 1 0 = Ok w1 ∧
     CutterLocationSurface_new 2 (count w1) = Ok w2 ∧
     vertex_indices w1 = [0; 1; 2; 3; 4; 5; 6; 7; 8]%Z ∧
     vertex_indices w2 = [9; 10; 11; 12; 13; 14; 15; 16; 17]%Z) ∧
  (∃ w1 w2,
     CutterLocationSurface_new 1 2147483629 = Ok w1 ∧
     CutterLocationSurface_new 2 (count w1) = Ok w2 ∧
     count w2 = INT_MAX).
Proof.
  assert (counter_in_range 0 18) as H0
    by (unfold counter_in_range, INT_MIN, INT_MAX; lia).
  assert (counter_in_range 2147483629 18) as H1
    by (unfold counter_in_range, INT_MIN, INT_MAX; lia).
  split; [exact H0|]. split; [exact H1|]. split.
  - destruct (vertex_indices_from_global_count 1 2 0 H0)
      as (w1 & w2 & E1 & E2 & I1 & _ & I2 & _).
    exists w1, w2. split; [exact E1|]. split; [exact E2|].
    split; [exact I1|exact I2].
  - destruct (vertex_indices_from_global_count 1 2 2147483629 H1)
      as (w1 & w2 & E1 & E2 & _ & _ & _ & C2 & _).
    exists w1, w2. split; [exact E1|]. split; [exact E2|]. exact C2.
Defined.

(** ** [run] *)

(** C10: [run()] does nothing: it returns with the world it was called in,
    so the mesh and the members [min_sampling], [far] and [out_face] are
    unchanged (and so is the vertex counter). *)
Theorem run_is_noop (w : World) : run w = Ok (tt, w).
Proof. reflexivity. Qed.

(** * Further properties of the code *)

(** *** What a pass appends to the vertex list *)

Lemma split_edge_vertices (center : Vertex) (e : Edge) (w w' : World) :
  split_edge center e w = Ok (tt, w') →
  ∃ vc' m,
    vertices (g (this w')) = <[center := vc']> (vertices (g (this w))) ++ [m] ∧
    index m = count w ∧
    (∀ vc, vertices (g (this w)) !! center = Some vc → index vc' = index vc) ∧
    count w' = (count w + 1)%Z.
Proof.
  intros (h & ps & pt & vc & gr' & _ & _ & _ & Hvc & H & ->)%split_edge_Ok.
  apply insert_vertex_in_edge_Ok in H
    as (h' & t & ht & p & tp & _ & _ & _ & _ & _ & _ & ->).
  do 2 eexists. split; [reflexivity|]. split; [reflexivity|].
  split; [|reflexivity]. intros vc0 Hvc0. by simplify_eq.
Qed.

Lemma foreach_split_edge_vertices (center : Vertex) (l : list Edge) :
  ∀ (w w' : World) (old : list VertexProps) (vc : VertexProps)
    (new : list VertexProps),
    vertices (g (this w)) = old ++ vc :: new →
    center = length old →
    foreach l (split_edge center) w = Ok (tt, w') →
    ∃ vc' ms,
      vertices (g (this w')) = old ++ vc' :: new ++ ms ∧
      index vc' = index vc ∧
      index <$> ms = (λ i, count w + Z.of_nat i)%Z <$> seq 0 (length l) ∧
      count w' = (count w + Z.of_nat (length l))%Z.
Proof.
  induction l as [|e l IH]; intros w w' old vc new Hv Hc H; simpl in H.
  - minv H. exists vc, []. rewrite app_nil_r. split; [done|]. split; [done|].
    split; [done|]. simpl. lia.
  - apply bind_Ok in H as ([] & w1 & H1 & H2).
    apply split_edge_vertices in H1 as (vc1 & m & Hv1 & Hm & Hidx & Hcnt).
    rewrite Hv in Hv1. subst center.
    rewrite insert_app_r_alt, Nat.sub_diag in Hv1 by lia. simpl in Hv1.
    rewrite <-app_assoc in Hv1. simpl in Hv1.
    assert (index vc1 = index vc) as Hvc1.
    { apply Hidx. rewrite Hv. by rewrite list_lookup_middle. }
    destruct (IH w1 w' old vc1 (new ++ [m]) Hv1 eq_refl H2)
      as (vc' & ms & Hv' & Hi' & Hms & Hcnt').
    exists vc', (m :: ms). split; [by rewrite Hv', <-app_assoc|].
    split; [congruence|]. split.
    + rewrite fmap_cons, Hms, Hm, Hcnt. cbn [length seq]. rewrite fmap_cons.
      apply (f_equal2 cons); [lia|].
      rewrite <-fmap_S_seq, <-list_fmap_compose. apply list_fmap_ext.
      intros i x _. simpl. lia.
    + rewrite Hcnt', Hcnt. simpl length. lia.
Qed.

Lemma subdivide_face_Ok (f : Face) (w w' : World) :
  subdivide_face f w = Ok (tt, w') →
  ∃ l l',
    face_edges f (g (this w)) = Ok (l, g (this w)) ∧ length l = 4 ∧
    foreach l (split_edge (num_vertices (g (this w))))
      (mkWorld (count w + 1)
         (mkCLS (with_vertices
                   (vertices (g (this w)) ++ [mkVertexProps Point_origin (count w)])
                   (g (this w)))
                (min_sampling (this w)) (far (this w)) (out_face (this w))))
    = Ok (tt, w') ∧
    face_edges f (g (this w')) = Ok (l', g (this w')) ∧ length l' = 8.
Proof.
  unfold subdivide_face. intros H. minv H.
  pose proof (face_edges_Ok _ _ _ _ Hstep) as ->.
  apply bool_decide_eq_true in Hassert.
  rewrite add_vertex_Ok in Hstep1. simplify_eq.
  pose proof (face_edges_Ok _ _ _ _ Hstep3) as ->.
  apply bool_decide_eq_true in Hassert0.
  rewrite foreach_skip in H. simplify_eq. destruct a1.
  exists a, a2. destruct s0 as [c0 [g0 ms0 f0 o0]]. done.
Qed.

(** X1: a successful [subdivide_face] only appends to the vertex list: every
    vertex that was there keeps its position and index, and exactly five
    vertices are added (the center, then the four mid-points).  As long as
    the global vertex counter does not overflow [int] on the way, the five
    take its five next values and it ends five higher. *)
Theorem subdivide_face_appends_five (f : Face) (w w' : World) :
  subdivide_face f w = Ok (tt, w') →
  ∃ new,
    vertices (g (this w')) = vertices (g (this w)) ++ new ∧
    length new = 5 ∧
    (counter_in_range (count w) 5 →
     index <$> new
       = [count w; count w + 1; count w + 2; count w + 3; count w + 4]%Z ∧
     count w' = (count w + 5)%Z).
Proof.
  intros (l & l' & _ & Hl & Hloop & _)%subdivide_face_Ok.
  eapply (foreach_split_edge_vertices _ _ _ _ (vertices (g (this w))) _ [])
    in Hloop as (vc' & ms & Hv & Hi & Hms & Hcnt); [|reflexivity|reflexivity].
  exists (vc' :: ms). split; [exact Hv|]. rewrite Hl in Hms, Hcnt.
  split.
  { simpl. f_equal.
    by rewrite <-(length_fmap index), Hms, length_fmap, length_seq. }
  intros _.
  rewrite fmap_cons, Hi, Hms. cbn [seq fmap list_fmap index count this] in *.
  split; [|lia].
  repeat (apply (f_equal2 cons); [lia|]). reflexivity.
Qed.

Lemma with_g_id (w : World) : with_g (g (this w)) w = w.
Proof. by destruct w as [c [gr ms f o]]. Qed.

(** A relation between the worlds before and after [subdivide_face] that is
    reflexive and transitive also relates the worlds before and after the
    whole sweep. *)
Lemma subdivide_from_rel (R : relation World) `{!Reflexive R, !Transitive R} :
  (∀ f w w', subdivide_face f w = Ok (tt, w') → R w w') →
  ∀ fuel f w w', subdivide_from f fuel w = Ok (tt, w') → R w w'.
Proof.
  intros HR fuel. induction fuel as [|fuel IH]; intros f w w' H; simpl in H.
  - apply bind_Ok in H as (n & w0 & H0 & H). minv H0. rewrite with_g_id in H.
    case_bool_decide as Hlt; [discriminate H|]. by minv H.
  - apply bind_Ok in H as (n & w0 & H0 & H). minv H0. rewrite with_g_id in H.
    case_bool_decide as Hlt; [|by minv H].
    apply bind_Ok in H as (o & w1 & Hget & H). minv Hget.
    apply bind_Ok in H as ([] & w2 & Hface & H).
    etrans; [|by eapply IH].
    case_bool_decide as Hout; [by eapply HR|by minv Hface].
Qed.

Lemma subdivide_rel (R : relation World) `{!Reflexive R, !Transitive R} :
  (∀ f w w', subdivide_face f w = Ok (tt, w') → R w w') →
  ∀ w w', subdivide w = Ok (tt, w') → R w w'.
Proof.
  intros HR w w' H. unfold subdivide in H.
  apply bind_Ok in H as (n & w0 & H0 & H). minv H0. rewrite with_g_id in H.
  by eapply subdivide_from_rel.
Qed.

#[local] Instance same_members_refl : Reflexive same_members.
Proof. intros w. by repeat split. Qed.

#[local] Instance same_members_trans : Transitive same_members.
Proof.
  intros w1 w2 w3 (H1 & H2 & H3 & H4) (H1' & H2' & H3' & H4').
  repeat split; congruence.
Qed.

Lemma split_edge_members (center : Vertex) (e : Edge) (w w' : World) :
  split_edge center e w = Ok (tt, w') → same_members w w'.
Proof.
  intros H. pose proof (split_edge_faces _ _ _ _ H) as [Hf Ho].
  apply split_edge_Ok in H as (h & ps & pt & vc & gr' & _ & _ & _ & _ & _ & ->).
  by repeat split.
Qed.

Lemma foreach_split_edge_members (center : Vertex) (l : list Edge) :
  ∀ w w', foreach l (split_edge center) w = Ok (tt, w') → same_members w w'.
Proof.
  induction l as [|e l IH]; intros w w' H; simpl in H.
  - by minv H.
  - apply bind_Ok in H as ([] & w1 & H1 & H2).
    etrans; [by eapply split_edge_members|by apply IH].
Qed.

Lemma subdivide_face_members (f : Face) (w w' : World) :
  subdivide_face f w = Ok (tt, w') → same_members w w'.
Proof.
  intros (l & l' & _ & _ & Hloop & _)%subdivide_face_Ok.
  apply foreach_split_edge_members in Hloop as (H1 & H2 & H3 & H4).
  repeat split; [|done..]. rewrite H1. done.
Qed.

(** X3: a successful [subdivide] neither creates nor retires a face and
    leaves [out_face], [far] and [min_sampling] as they were. *)
Theorem subdivide_keeps_members (w w' : World) :
  subdivide w = Ok (tt, w') →
  idx <$> faces (g (this w')) = idx <$> faces (g (this w)) ∧
  num_faces (g (this w')) = num_faces (g (this w)) ∧
  out_face (this w') = out_face (this w) ∧
  far (this w') = far (this w) ∧
  min_sampling (this w') = min_sampling (this w).
Proof.
  intros H.
  destruct (subdivide_rel same_members subdivide_face_members _ _ H)
    as (H1 & H2 & H3 & H4).
  repeat split; [done| |done..].
  unfold num_faces. by rewrite <-(length_fmap idx), H1, length_fmap.
Qed.

(** *** The assertions of [subdivide_face] *)

Lemma subdivide_face_not_quad (f : Face) (w : World) (l : list Edge) :
  boundary (g (this w)) f = Some l → length l ≠ 4 →
  subdivide_face f w = Err AssertionFailed.
Proof.
  unfold boundary. intros Hb Hl.
  destruct (face_edges f (g (this w))) as [[l0 gr]|] eqn:Hf; [|done].
  injection Hb as ->.
  unfold subdivide_face, bind at 1, on_g. rewrite Hf.
  unfold bind at 1. by rewrite bool_decide_eq_false_2.
Qed.

(** X5: a face that [subdivide_face] has been run on successfully cannot be
    run on again: the second call fails the first assertion, the boundary
    then having eight half-edges. *)
Theorem subdivide_face_not_repeatable (f : Face) (w w' : World) :
  subdivide_face f w = Ok (tt, w') →
  subdivide_face f w' = Err AssertionFailed.
Proof.
  intros (l & l' & _ & _ & _ & Hf & Hl)%subdivide_face_Ok.
  apply (subdivide_face_not_quad f w' l'); [|lia].
  unfold boundary. by rewrite Hf.
Qed.

(** *** [min_sampling] is never read *)

Lemma blind_ret {A} (a : A) : min_sampling_blind (ret a).
Proof. intros o w. reflexivity. Qed.

Lemma blind_fail {A} (e : error) : min_sampling_blind (fail (A:=A) e).
Proof. intros o w. reflexivity. Qed.

Lemma blind_cassert (b : bool) : min_sampling_blind (cassert b).
Proof. destruct b; [apply blind_ret|apply blind_fail]. Qed.

Lemma blind_bind {A B} (m : M World A) (k : A → M World B) :
  min_sampling_blind m → (∀ a, min_sampling_blind (k a)) →
  min_sampling_blind (bind m k).
Proof.
  intros Hm Hk o w. unfold bind. rewrite Hm.
  destruct (m w) as [[a w1]|e]; simpl; [apply Hk|done].
Qed.

Lemma blind_on_g {A} (m : M CLSGraph A) : min_sampling_blind (on_g m).
Proof.
  intros o w. unfold on_g. simpl.
  by destruct (m (g (this w))) as [[a gr]|e].
Qed.

Lemma blind_foreach {A} (l : list A) (body : A → M World unit) :
  (∀ a, min_sampling_blind (body a)) → min_sampling_blind (foreach l body).
Proof.
  intros Hb. induction l as [|a l IH]; simpl; [apply blind_ret|].
  apply blind_bind; [apply Hb|intros _; apply IH].
Qed.

Lemma blind_add_vertex : min_sampling_blind add_vertex.
Proof. intros o w. reflexivity. Qed.

Lemma blind_split_edge (center : Vertex) (e : Edge) :
  min_sampling_blind (split_edge center e).
Proof.
  unfold split_edge.
  repeat (apply blind_bind; [first [apply blind_add_vertex|apply blind_on_g]|intros ?]).
  apply blind_on_g.
Qed.

Lemma blind_subdivide_face (f : Face) : min_sampling_blind (subdivide_face f).
Proof.
  unfold subdivide_face.
  apply blind_bind; [apply blind_on_g|intros l].
  apply blind_bind; [apply blind_cassert|intros _].
  apply blind_bind; [apply blind_add_vertex|intros center].
  apply blind_bind; [apply blind_foreach, blind_split_edge|intros _].
  apply blind_bind; [apply blind_on_g|intros l'].
  apply blind_bind; [apply blind_cassert|intros _].
  apply blind_foreach. intros _. apply blind_ret.
Qed.

Lemma blind_subdivide_from (fuel : nat) :
  ∀ f, min_sampling_blind (subdivide_from f fuel).
Proof.
  induction fuel as [|fuel IH]; intros f; simpl.
  - apply blind_bind; [apply blind_on_g|intros n].
    case_bool_decide; [apply blind_fail|apply blind_ret].
  - apply blind_bind; [apply blind_on_g|intros n].
    case_bool_decide; [|apply blind_ret].
    apply blind_bind; [by intros o w|intros o].
    apply blind_bind; [|intros _; apply IH].
    case_bool_decide; [apply blind_subdivide_face|apply blind_ret].
Qed.

Lemma blind_subdivide : min_sampling_blind subdivide.
Proof.
  unfold subdivide. apply blind_bind; [apply blind_on_g|intros n].
  apply blind_subdivide_from.
Qed.

(** X6: [subdivide] and [subdivide_face] never read [min_sampling]: run
    after [setMinSampling(s)] they fail or succeed exactly as without it, and
    produce the same world up to the stored [min_sampling]. *)
Theorem subdivide_never_reads_min_sampling (s : Q) (w : World) :
  subdivide (with_min_sampling (Some s) w)
  = result_with_min_sampling (Some s) (subdivide w) ∧
  (∀ f, subdivide_face f (with_min_sampling (Some s) w)
        = result_with_min_sampling (Some s) (subdivide_face f w)) ∧
  setMinSampling s w = Ok (tt, with_min_sampling (Some s) w).
Proof.
  split; [apply blind_subdivide|]. split; [|reflexivity].
  intros f. apply blind_subdivide_face.
Qed.

(** *** Vertex indices *)

#[local] Instance vertices_appended_refl : Reflexive vertices_appended.
Proof.
  intros w. exists []. rewrite app_nil_r. simpl. split; [done|]. split; [done|lia].
Qed.

#[local] Instance vertices_appended_trans : Transitive vertices_appended.
Proof.
  intros w1 w2 w3 (n1 & Hv1 & Hi1 & Hc1) (n2 & Hv2 & Hi2 & Hc2).
  exists (n1 ++ n2). split; [by rewrite Hv2, Hv1, app_assoc|].
  rewrite length_app, seq_app, !fmap_app, Hi1, Hi2, Hc1. split; [|lia].
  f_equal. rewrite (Nat.add_comm 0 (length n1)).
  rewrite <-(fmap_add_seq (length n1) 0), <-list_fmap_compose.
  apply list_fmap_ext. intros i x _. simpl. lia.
Qed.

Lemma subdivide_face_vertices_appended (f : Face) (w w' : World) :
  subdivide_face f w = Ok (tt, w') → vertices_appended w w'.
Proof.
  intros (l & l' & _ & Hl & Hloop & _)%subdivide_face_Ok.
  eapply (foreach_split_edge_vertices _ _ _ _ (vertices (g (this w))) _ [])
    in Hloop as (vc' & ms & Hv & Hi & Hms & Hcnt); [|reflexivity|reflexivity].
  exists (vc' :: ms). split; [exact Hv|].
  assert (length ms = length l) as Hlen.
  { by rewrite <-(length_fmap index), Hms, length_fmap, length_seq. }
  cbn [length count this index] in *. rewrite Hlen. split; [|lia].
  rewrite fmap_cons, Hi, Hms. cbn [seq]. rewrite fmap_cons.
  apply (f_equal2 cons); [simpl; lia|].
  rewrite <-fmap_S_seq, <-list_fmap_compose. apply list_fmap_ext.
  intros i x _. simpl. lia.
Qed.

Lemma vertices_appended_unique (w w' : World) :
  vertices_appended w w' → indices_unique w → indices_unique w'.
Proof.
  intros (new & Hv & Hi & Hc) [Hnd Hlt]. unfold indices_unique, vertex_indices in *.
  rewrite Hv, fmap_app, Hi, Hc. split.
  - apply NoDup_app. split; [done|]. split.
    + intros i Hin (j & -> & Hj)%list_elem_of_fmap.
      rewrite Forall_forall in Hlt. specialize (Hlt _ Hin). lia.
    + apply NoDup_fmap_2; [|apply NoDup_seq]. intros i j. lia.
  - apply Forall_app. split.
    + eapply Forall_impl; [exact Hlt|]. intros i. simpl. lia.
    + apply Forall_fmap, Forall_forall. intros i Hin%elem_of_seq. simpl. lia.
Qed.

(** X7: a successful [subdivide] keeps the vertex indices that were there,
    in order.  If they are pairwise distinct and below the global counter,
    and the counter does not overflow [int] during the sweep (five
    increments for every bounded face), they are so again afterwards, and
    the counter has not gone down. *)
Theorem subdivide_keeps_indices_unique (w w' : World) :
  indices_unique w →
  subdivide w = Ok (tt, w') →
  vertex_indices w `prefix_of` vertex_indices w' ∧
  (counter_in_range (count w) (5 * Z.of_nat (length (bounded_faces w))) →
   indices_unique w' ∧ (count w ≤ count w')%Z).
Proof.
  intros Hu H.
  pose proof (subdivide_rel vertices_appended subdivide_face_vertices_appended
                _ _ H) as Happ.
  split.
  { destruct Happ as (new & Hv & _ & Hc).
    unfold vertex_indices. rewrite Hv, fmap_app. by eexists. }
  intros _. split; [by eapply vertices_appended_unique|].
  destruct Happ as (new & Hv & _ & Hc). lia.
Qed.

Lemma split_edge_targets (center : Vertex) (e : Edge) (gr0 : CLSGraph)
    (w w' : World) :
  counter_fresh gr0 →
  edge_counter gr0 ≤ edge_counter (g (this w)) →
  targets_kept gr0 (g (this w)) →
  split_edge center e w = Ok (tt, w') →
  targets_kept gr0 (g (this w')).
Proof.
  intros Hc Hle Hk H.
  apply split_edge_Ok in H as (h & ps & pt & vc & gr' & _ & _ & _ & _ & H & ->).
  apply insert_vertex_in_edge_Ok in H
    as (h' & t & ht & p & tp & _ & _ & _ & _ & _ & _ & ->).
  intros x h0 hx H0 Hx. pose proof (Hc _ _ H0) as Hx0. simpl in Hx0.
  apply splice_lookup in Hx as [([Hr _] & _)|(_ & _ & h1 & H1 & _ & ->)];
    simpl in *; [lia|]. by eapply Hk.
Qed.

Lemma foreach_split_edge_midpoints (center : Vertex) (gr0 : CLSGraph)
    (l : list Edge) :
  counter_fresh gr0 →
  ∀ (w w' : World) (old : list VertexProps) (vc : VertexProps)
    (new : list VertexProps),
    frame center gr0 (g (this w)) →
    targets_kept gr0 (g (this w)) →
    vertices (g (this w)) = old ++ vc :: new →
    center = length old →
    Forall (endpoints_apart center gr0) l →
    foreach l (split_edge center) w = Ok (tt, w') →
    ∃ vc' ms,
      vertices (g (this w')) = old ++ vc' :: new ++ ms ∧
      Forall2 (midpoint_of gr0) l ms.
Proof.
  intros Hc w w' old vc new Hf Hk Hv Hcen Hl. revert w old vc new Hf Hk Hv Hcen.
  induction Hl as [|e l (h0 & ps0 & pt0 & H0 & Hns & Hnt & Hps0 & Hpt0) _ IH];
    intros w old vc new Hf Hk Hv Hcen H; simpl in H.
  - minv H. exists vc, []. rewrite app_nil_r. split; [done|constructor].
  - apply bind_Ok in H as ([] & w1 & H1 & H2).
    destruct (split_edge_frame _ _ _ _ _ Hc Hf H1) as (Hf1 & _).
    pose proof (split_edge_targets _ _ _ _ _ Hc (frame_counter _ _ _ Hf) Hk H1)
      as Hk1.
    pose proof (split_edge_Ok _ _ _ _ H1)
      as (h & ps & pt & vc0 & gr' & He & Hps & Hpt & Hvc & Hins & ->).
    apply insert_vertex_in_edge_Ok in Hins
      as (h' & t & ht & p & tp & _ & _ & _ & _ & _ & _ & ->).
    pose proof (frame_sources _ _ _ Hf _ _ _ H0 He) as Hsrc.
    pose proof (Hk _ _ _ H0 He) as Htrg.
    rewrite <-Hsrc in Hns, Hps0. rewrite <-Htrg in Hnt, Hpt0.
    pose proof (frame_vertices _ _ _ Hf _ _ Hns Hps0) as Hps'.
    pose proof (frame_vertices _ _ _ Hf _ _ Hnt Hpt0) as Hpt'.
    simplify_eq.
    set (m := mkVertexProps (midpoint (position ps) (position pt)) (count w)) in *.
    set (vc1 := mkVertexProps (Point_add (position vc0) (quarter (position ps)))
                  (index vc0)) in *.
    destruct (IH _ old vc1 (new ++ [m]) Hf1 Hk1) as (vc' & ms & Hv' & Hms);
      [|reflexivity|exact H2|].
    { simpl. rewrite Hv.
      rewrite insert_app_r_alt, Nat.sub_diag by lia. simpl.
      by rewrite <-app_assoc. }
    exists vc', (m :: ms). split; [by rewrite Hv', <-app_assoc|].
    constructor; [|exact Hms].
    exists h0, ps, pt. rewrite Hsrc, Htrg in *. done.
Qed.

(** X2: after a successful [subdivide_face] on a well-formed mesh, the four
    vertices that follow the center in the vertex list sit, in boundary
    order, at the mid-points of the four boundary half-edges, computed from
    the endpoint positions as they were before the pass. *)
Theorem subdivide_face_midpoints (f : Face) (w w' : World) :
  mesh_wf (g (this w)) →
  subdivide_face f w = Ok (tt, w') →
  ∃ e0 e1 e2 e3 m0 m1 m2 m3,
    boundary (g (this w)) f = Some [e0; e1; e2; e3] ∧
    drop (S (num_vertices (g (this w)))) (vertices (g (this w')))
      = [m0; m1; m2; m3] ∧
    Forall2 (midpoint_of (g (this w))) [e0; e1; e2; e3] [m0; m1; m2; m3].
Proof.
  intros [Hc Hk] H.
  apply subdivide_face_Ok in H as (l & l' & Hf & Hl & Hloop & _).
  pose proof (face_edges_alive _ _ _ _ Hf) as Halive.
  set (vp := mkVertexProps Point_origin (count w)) in *.
  set (gr0 := with_vertices (vertices (g (this w)) ++ [vp]) (g (this w))) in *.
  eapply (foreach_split_edge_midpoints _ gr0 _ Hc _ _
            (vertices (g (this w))) vp [])
    in Hloop as (vc' & ms & Hv & Hms);
    [|apply frame_refl
     |intros e h0 h E1 E2; simpl in E1, E2; congruence
     |reflexivity|reflexivity|].
  2:{ eapply Forall_impl; [exact Halive|]. intros e [h He]. simpl in He.
      destruct (Hk _ _ He) as [Hs Ht]. simpl in Hs, Ht.
      destruct (lookup_lt_is_Some_2 _ _ Hs) as [ps Hps].
      destruct (lookup_lt_is_Some_2 _ _ Ht) as [pt Hpt].
      exists h, ps, pt. unfold gr0. simpl. rewrite !lookup_app_l by done.
      unfold num_vertices in *. repeat split; [done|lia|lia|done|done]. }
  pose proof (Forall2_length _ _ _ Hms) as Hlen. rewrite Hl in Hlen.
  destruct l as [|e0 [|e1 [|e2 [|e3 [|]]]]]; try discriminate Hl.
  destruct ms as [|m0 [|m1 [|m2 [|m3 [|]]]]]; try discriminate Hlen.
  exists e0, e1, e2, e3, m0, m1, m2, m3.
  split; [unfold boundary; by rewrite Hf|]. split.
  - rewrite Hv. unfold num_vertices.
    change (vertices (g (this w)) ++ vc' :: [] ++ [m0; m1; m2; m3])
      with (vertices (g (this w)) ++ [vc'] ++ [m0; m1; m2; m3]).
    rewrite app_assoc. rewrite drop_app_length'; [done|].
    rewrite length_app. simpl. lia.
  - eapply Forall2_impl; [exact Hms|].
    intros e m (h & ps & pt & He & Hps & Hpt & Hm). simpl in He.
    destruct (Hk _ _ He) as [Hs Ht]. simpl in Hs, Ht.
    unfold gr0 in Hps, Hpt. simpl in Hps, Hpt.
    rewrite lookup_app_l in Hps, Hpt by done.
    by exists h, ps, pt.
Qed.

Lemma collect_from_Ok {S A B} (f : A → B) (body : A → M S B) (s : S) :
  ∀ (l : list A) (plist : list B),
    Forall (λ a, body a s = Ok (f a, s)) l →
    collect_from plist l body s = Ok (plist ++ (f <$> l), s).
Proof.
  induction l as [|a l IH]; intros plist Hl; simpl.
  - by rewrite app_nil_r.
  - apply Forall_cons in Hl as [Ha Hl]. unfold bind. rewrite Ha.
    rewrite (IH _ Hl). by rewrite <-app_assoc.
Qed.

(** X8: [getVertices] never fails, changes nothing, and returns the
    position of every vertex, one entry per vertex in the order of the vertex
    list. *)
Theorem getVertices_positions (w : World) :
  getVertices w = Ok (vertex_positions w, w).
Proof.
  unfold getVertices, bind at 1, on_g, gets. simpl. rewrite with_g_id.
  unfold collect.
  rewrite (collect_from_Ok
             (λ v, default Point_origin (position <$> vertices (g (this w)) !! v))).
  - simpl. do 2 f_equal. unfold vertex_positions, vertex_sequence, num_vertices.
    apply list_eq. intros i. rewrite !list_lookup_fmap.
    destruct (vertices (g (this w)) !! i) as [vp|] eqn:Hi; simpl.
    + rewrite lookup_seq_lt by (by eapply lookup_lt_Some). simpl. by rewrite Hi.
    + rewrite lookup_seq_ge; [done|]. by apply lookup_ge_None.
  - apply Forall_forall. intros v Hv%elem_of_seq.
    destruct (lookup_lt_is_Some_2 (vertices (g (this w))) v) as [vp Hvp];
      [unfold num_vertices in Hv; lia|].
    unfold bind, on_g, get_vertex, bind, gets, from_option. simpl.
    rewrite Hvp. simpl. by rewrite with_g_id.
Qed.

Lemma edge_sequence_alive (gr : CLSGraph) (e : Edge) :
  e ∈ edge_sequence gr → is_Some (edges gr !! e).
Proof. unfold edge_sequence. by intros [? _]%list_elem_of_filter. Qed.

Lemma edge_sequence_length (gr : CLSGraph) :
  counter_fresh gr → length (edge_sequence gr) = num_edges gr.
Proof.
  intros Hc. unfold num_edges. rewrite <-size_dom.
  change (size (dom (edges gr))) with (length (elements (dom (edges gr)))).
  apply Permutation_length, NoDup_Permutation.
  - apply NoDup_filter, NoDup_seq.
  - apply NoDup_elements.
  - intros e. rewrite elem_of_elements, elem_of_dom. unfold edge_sequence.
    rewrite list_elem_of_filter, elem_of_seq. split; [by intros [? _]|].
    intros [h He]. split; [by eexists|]. pose proof (Hc _ _ He). simpl in *. lia.
Qed.

(** X9: on a well-formed mesh [getEdges] returns, changes nothing, and
    gives one two-element list per live half-edge, holding the positions of
    its source and of its target, both of which are positions that
    [getVertices] reports. *)
Theorem getEdges_on_well_formed (w : World) :
  mesh_wf (g (this w)) →
  ∃ l,
    getEdges w = Ok (l, w) ∧
    Forall2 (edge_points (g (this w))) (edge_sequence (g (this w))) l ∧
    length l = num_edges (g (this w)) ∧
    Forall (λ pl, ∃ p q, pl = [p; q] ∧
                         p ∈ vertex_positions w ∧ q ∈ vertex_positions w) l.
Proof.
  intros [Hc Hk].
  set (pts := λ e : nat,
    match edges (g (this w)) !! e with
    | Some h =>
        [default Point_origin (position <$> vertices (g (this w)) !! he_source h);
         default Point_origin (position <$> vertices (g (this w)) !! he_target h)]
    | None => []
    end).
  assert (∀ e, e ∈ edge_sequence (g (this w)) →
            edge_points (g (this w)) e (pts e)) as Hpts.
  { intros e [h He]%edge_sequence_alive. destruct (Hk _ _ He) as [Hs Ht].
    simpl in Hs, Ht.
    destruct (lookup_lt_is_Some_2 _ _ Hs) as [ps Hps].
    destruct (lookup_lt_is_Some_2 _ _ Ht) as [pt Hpt].
    exists h, ps, pt. unfold pts. rewrite He, Hps, Hpt. done. }
  exists (pts <$> edge_sequence (g (this w))). split; [|split; [|split]].
  - unfold getEdges, bind at 1, on_g at 1, gets. simpl. rewrite with_g_id.
    unfold collect. rewrite (collect_from_Ok pts); [done|].
    apply Forall_forall. intros e He.
    destruct (Hpts e He) as (h & ps & pt & Hh & Hps & Hpt & Hpl).
    unfold bind, on_g, source, target, get_vertex, get_edge, bind, gets,
      from_option, ret. simpl.
    rewrite Hh. simpl. rewrite Hh. simpl. rewrite Hps. simpl. rewrite Hpt. simpl.
    rewrite Hpl. by destruct w as [c [gr ms f o]].
  - revert Hpts. generalize (edge_sequence (g (this w))).
    induction l as [|e l IH]; intros Hl; simpl; constructor.
    + apply Hl. by left.
    + apply IH. intros e' He'. apply Hl. by right.
  - rewrite length_fmap. by apply edge_sequence_length.
  - apply Forall_fmap, Forall_forall. intros e He.
    destruct (Hpts e He) as (h & ps & pt & Hh & Hps & Hpt & Hpl).
    exists (position ps), (position pt). split; [exact Hpl|].
    unfold vertex_positions. split; apply list_elem_of_fmap.
    + exists ps. split; [done|]. by eapply list_elem_of_lookup_2.
    + exists pt. split; [done|]. by eapply list_elem_of_lookup_2.
Qed.

(** X10: [getCLPoints_py] returns the CL-points of the vector in the same
    order, none lost, none added. *)
Theorem getCLPoints_py_copies (CLPoint : Type) (clpoints : list CLPoint) :
  getCLPoints_py CLPoint clpoints = clpoints.
Proof.
  unfold getCLPoints_py.
  enough (∀ plist : list CLPoint,
            foldl (λ plist p, plist ++ [p]) plist clpoints = plist ++ clpoints)
    as H by apply (H []).
  induction clpoints as [|p l IH]; intros plist; simpl.
  - by rewrite app_nil_r.
  - by rewrite IH, <-app_assoc.
Qed.

Lemma mesh_inv_square (f : Q) (c : Z) : mesh_inv (g (this (square f c))).
Proof.
  apply reachable_mesh_inv.
  exact (traces_init_square _ _ _ (init_square_computes f c)).
Qed.

(** X12: on a mesh that is twin-symmetric and well-formed, each of
    [subdivide_face], [subdivide] and [init], when it returns, leaves a mesh
    that is twin-symmetric and well-formed again. *)
Theorem methods_keep_mesh_inv (w : World) :
  mesh_inv (g (this w)) →
  (∀ f w', subdivide_face f w = Ok (tt, w') → mesh_inv (g (this w'))) ∧
  (∀ w', subdivide w = Ok (tt, w') → mesh_inv (g (this w'))) ∧
  (∀ w', init w = Ok (tt, w') → mesh_inv (g (this w'))).
Proof.
  intros Hi. split; [|split].
  - intros f w' H. eapply rtc_mutation_mesh_inv; [|exact Hi].
    by eapply traces_subdivide_face.
  - intros w' H. eapply rtc_mutation_mesh_inv; [|exact Hi].
    by eapply traces_subdivide.
  - intros w' H. eapply rtc_mutation_mesh_inv; [|exact Hi].
    by eapply traces_init.
Qed.

Lemma map_size_alter (f : HalfEdge → HalfEdge) (k : nat) (m : gmap nat HalfEdge) :
  size (alter f k m) = size m.
Proof. by rewrite <-!(size_dom (D:=gset nat)), dom_alter_L. Qed.

Lemma lookup_alter_is_Some (f : HalfEdge → HalfEdge) (k x : nat)
    (m : gmap nat HalfEdge) :
  is_Some (alter f k m !! x) ↔ is_Some (m !! x).
Proof.
  rewrite lookup_alter. case_decide; [subst|done]. by rewrite fmap_is_Some.
Qed.

Lemma splice_num_edges (gr : CLSGraph) (v : Vertex) (e t p tp : Edge)
    (h ht : HalfEdge) :
  counter_fresh gr →
  edges gr !! e = Some h → edges gr !! t = Some ht → e ≠ t →
  num_edges (splice v e t p tp h ht gr) = num_edges gr + 2.
Proof.
  intros Hc He Ht Hne. pose proof (Hc _ _ He) as Hlte.
  pose proof (Hc _ _ Ht) as Hltt. simpl in Hlte, Hltt.
  assert (∀ x, edge_counter gr ≤ x → edges gr !! x = None) as Hfresh.
  { intros x Hx. destruct (edges gr !! x) as [hx|] eqn:E; [|done].
    pose proof (Hc _ _ E). simpl in *. lia. }
  unfold num_edges, splice. simpl.
  rewrite map_size_delete_Some.
  2:{ rewrite lookup_delete_ne by done. rewrite !lookup_alter_is_Some.
      rewrite !lookup_insert_ne, Ht by lia. by eexists. }
  rewrite map_size_delete_Some.
  2:{ rewrite !lookup_alter_is_Some.
      rewrite !lookup_insert_ne, He by lia. by eexists. }
  rewrite !map_size_alter.
  rewrite map_size_insert_None.
  2:{ rewrite !lookup_insert_ne by lia. apply Hfresh. lia. }
  rewrite map_size_insert_None.
  2:{ rewrite !lookup_insert_ne by lia. apply Hfresh. lia. }
  rewrite map_size_insert_None.
  2:{ rewrite !lookup_insert_ne by lia. apply Hfresh. lia. }
  rewrite map_size_insert_None by (apply Hfresh; lia).
  simpl. lia.
Qed.

Lemma no_self_twin_splice (gr : CLSGraph) (v : Vertex) (e t p tp : Edge)
    (h ht : HalfEdge) :
  no_self_twin gr → no_self_twin (splice v e t p tp h ht gr).
Proof.
  intros Hn x. rewrite twin_of_splice.
  repeat case_decide; try done; intros [= ?]; lia.
Qed.

Lemma split_edge_edges_grown (center : Vertex) (e : Edge) (w w' : World) :
  mesh_inv (g (this w)) → no_self_twin (g (this w)) →
  split_edge center e w = Ok (tt, w') →
  edges_grown 2 w w'.
Proof.
  intros Hi Hn H. split; [|split].
  - eapply rtc_mutation_mesh_inv; [|exact Hi]. by eapply traces_split_edge.
  - apply split_edge_Ok in H as (h & ps & pt & vc & gr' & _ & _ & _ & _ & H & ->).
    apply insert_vertex_in_edge_Ok in H
      as (h' & t & ht & p & tp & _ & _ & _ & _ & _ & _ & ->).
    simpl. apply no_self_twin_splice. exact Hn.
  - destruct Hi as (_ & Hc & _).
    apply split_edge_Ok in H as (h & ps & pt & vc & gr' & _ & _ & _ & _ & H & ->).
    apply insert_vertex_in_edge_Ok in H
      as (h' & t & ht & p & tp & _ & He & Hht & Ht & _ & _ & ->).
    simpl in *. rewrite splice_num_edges; [done|done|done|done|].
    intros ->. apply (Hn t). apply twin_of_Some. eauto.
Qed.

Lemma foreach_split_edge_edges_grown (center : Vertex) (l : list Edge) :
  ∀ w w', mesh_inv (g (this w)) → no_self_twin (g (this w)) →
    foreach l (split_edge center) w = Ok (tt, w') →
    edges_grown (2 * length l) w w'.
Proof.
  induction l as [|e l IH]; intros w w' Hi Hn H; simpl in H.
  - minv H. split; [done|]. split; [done|]. simpl. lia.
  - apply bind_Ok in H as ([] & w1 & H1 & H2).
    destruct (split_edge_edges_grown _ _ _ _ Hi Hn H1) as (Hi1 & Hn1 & Hs1).
    destruct (IH _ _ Hi1 Hn1 H2) as (Hi2 & Hn2 & Hs2).
    split; [done|]. split; [done|]. rewrite Hs2, Hs1. simpl length. lia.
Qed.

(** X11: on a twin-symmetric, well-formed mesh without self-twins a
    successful [subdivide_face] raises the number of live half-edges by
    eight (each of the four splits adds four and removes two), and again no
    half-edge is its own twin. *)
Theorem subdivide_face_adds_eight_edges (f : Face) (w w' : World) :
  mesh_inv (g (this w)) → no_self_twin (g (this w)) →
  subdivide_face f w = Ok (tt, w') →
  num_edges (g (this w')) = num_edges (g (this w)) + 8 ∧
  no_self_twin (g (this w')).
Proof.
  intros Hi Hn (l & l' & _ & Hl & Hloop & _)%subdivide_face_Ok.
  apply foreach_split_edge_edges_grown in Hloop as (_ & Hn' & Hs);
    [|apply (mesh_inv_vertices (g (this w))); [rewrite length_app; lia|exact Hi]
     |exact Hn].
  rewrite Hl in Hs. split; [exact Hs|exact Hn'].
Qed.

Lemma subdivide_from_skip (fuel : nat) :
  ∀ f w,
    num_faces (g (this w)) - f ≤ fuel →
    (∀ f', f ≤ f' < num_faces (g (this w)) → out_face (this w) = Some f') →
    subdivide_from f fuel w = Ok (tt, w).
Proof.
  induction fuel as [|fuel IH]; intros f w Hn Hout.
  - destruct w as [c [gr ms fa o]]. simpl in *.
    unfold bind, on_g, gets. simpl. by rewrite bool_decide_eq_false_2 by lia.
  - destruct (decide (f < num_faces (g (this w)))) as [Hlt|Hge].
    + specialize (IH (S f) w). pose proof (Hout f) as Hf.
      destruct w as [c [gr ms fa o]]. simpl in *.
      unfold bind at 1. unfold on_g, gets. simpl.
      rewrite bool_decide_eq_true_2 by done.
      unfold bind at 1. simpl. rewrite Hf by lia.
      rewrite bool_decide_eq_false_2 by (by intros []).
      unfold bind at 1. unfold ret at 1. rewrite <-Hf by lia.
      apply IH; [lia|]. intros f' Hf'. apply Hout. lia.
    + destruct w as [c [gr ms fa o]]. simpl in *.
      unfold bind at 1. unfold on_g, gets. simpl.
      by rewrite bool_decide_eq_false_2.
Qed.

(** X13: when the mesh has no bounded face (an empty face table, or the
    outer face only), [subdivide] returns at once and changes nothing. *)
Theorem subdivide_without_bounded_faces (w : World) :
  bounded_faces w = [] → subdivide w = Ok (tt, w).
Proof.
  intros Hb. unfold subdivide, bind, on_g, gets. simpl. rewrite with_g_id.
  apply subdivide_from_skip; [lia|]. intros f' Hf'.
  destruct (decide (Some f' = out_face (this w))) as [->|Hne]; [done|].
  exfalso. apply (filter_nil_not_elem_of _ _ f' Hb Hne), elem_of_seq. lia.
Qed.

(** The pass on the bounding square for [far = 1]. *)
Lemma subdivide_face_appends_five_witness :
  subdivide_face 1 (square 1 0) = Ok (tt, built 1 0) ∧
  counter_in_range (count (square 1 0)) 5 ∧
  ∃ new,
    vertices (g (this (built 1 0))) = vertices (g (this (square 1 0))) ++ new ∧
    length new = 5 ∧
    index <$> new = [4; 5; 6; 7; 8]%Z ∧
    count (built 1 0) = 9%Z.
Proof.
  assert (counter_in_range (count (square 1 0)) 5) as Hr
    by (unfold counter_in_range, INT_MIN, INT_MAX; simpl; lia).
  split; [apply subdivide_face_square_computes|]. split; [exact Hr|].
  destruct (subdivide_face_appends_five 1 (square 1 0) (built 1 0)
              (subdivide_face_square_computes 1 0)) as (new & Hv & Hl & Hi).
  destruct (Hi Hr) as [Hidx Hc].
  exists new. split; [exact Hv|]. split; [exact Hl|].
  split; [exact Hidx|exact Hc].
Defined.

(** The pass on the bounding square for [far = 1]. *)
Lemma subdivide_face_midpoints_witness :
  mesh_wf (g (this (square 1 0))) ∧
  subdivide_face 1 (square 1 0) = Ok (tt, built 1 0) ∧
  ∃ m0 m1 m2 m3,
    drop 5 (vertices (g (this (built 1 0)))) = [m0; m1; m2; m3] ∧
    Forall2 (midpoint_of (g (this (square 1 0)))) [0; 2; 4; 6] [m0; m1; m2; m3].
Proof.
  split; [apply mesh_wf_square|]. split; [apply subdivide_face_square_computes|].
  destruct (subdivide_face_midpoints 1 (square 1 0) (built 1 0)
              (mesh_wf_square 1 0) (subdivide_face_square_computes 1 0))
    as (e0 & e1 & e2 & e3 & m0 & m1 & m2 & m3 & Hb & Hd & Hm).
  vm_compute in Hb. injection Hb as <- <- <- <-.
  exists m0, m1, m2, m3. split; [exact Hd|exact Hm].
Defined.

(** The sweep that the constructor runs for [far = 1]. *)
Lemma subdivide_keeps_members_witness :
  subdivide (square 1 0) = Ok (tt, built 1 0) ∧
  idx <$> faces (g (this (built 1 0))) = [0; 1] ∧
  num_faces (g (this (built 1 0))) = 2 ∧
  out_face (this (built 1 0)) = Some 0 ∧
  far (this (built 1 0)) = 1%Q ∧
  min_sampling (this (built 1 0)) = None.
Proof.
  split; [apply subdivide_square_computes|].
  exact (subdivide_keeps_members (square 1 0) (built 1 0)
           (subdivide_square_computes 1 0)).
Defined.

(** The bounded face of the bounding square for [far = 1]. *)
Lemma subdivide_face_not_repeatable_witness :
  subdivide_face 1 (square 1 0) = Ok (tt, built 1 0) ∧
  subdivide_face 1 (built 1 0) = Err AssertionFailed.
Proof.
  split; [apply subdivide_face_square_computes|].
  exact (subdivide_face_not_repeatable 1 (square 1 0) (built 1 0)
           (subdivide_face_square_computes 1 0)).
Defined.

Lemma indices_unique_square (f : Q) (c : Z) : indices_unique (square f c).
Proof.
  unfold indices_unique.
  assert (vertex_indices (square f c) = (λ i, c + Z.of_nat i)%Z <$> seq 0 4)
    as ->.
  { unfold vertex_indices. simpl.
    repeat (apply (f_equal2 cons); [lia|]). reflexivity. }
  split.
  - apply NoDup_fmap_2; [intros i j; lia|apply NoDup_seq].
  - apply Forall_fmap, Forall_forall. intros i Hi%elem_of_seq. simpl. lia.
Qed.

(** The sweep that the constructor runs for [far = 1]. *)
Lemma subdivide_keeps_indices_unique_witness :
  indices_unique (square 1 0) ∧
  subdivide (square 1 0) = Ok (tt, built 1 0) ∧
  counter_in_range (count (square 1 0))
    (5 * Z.of_nat (length (bounded_faces (square 1 0)))) ∧
  vertex_indices (square 1 0) `prefix_of` vertex_indices (built 1 0) ∧
  indices_unique (built 1 0) ∧
  (count (square 1 0) ≤ count (built 1 0))%Z.
Proof.
  assert (counter_in_range (count (square 1 0))
            (5 * Z.of_nat (length (bounded_faces (square 1 0))))) as Hr
    by (unfold counter_in_range, INT_MIN, INT_MAX; simpl; lia).
  split; [apply indices_unique_square|].
  split; [apply subdivide_square_computes|]. split; [exact Hr|].
  destruct (subdivide_keeps_indices_unique (square 1 0) (built 1 0)
              (indices_unique_square 1 0) (subdivide_square_computes 1 0))
    as [Hp Hq].
  split; [exact Hp|exact (Hq Hr)].
Defined.

Lemma mesh_wf_built (f : Q) (c : Z) : mesh_wf (g (this (built f c))).
Proof. split; apply (bool_decide_unpack _); vm_compute; exact I. Qed.

(** The constructed mesh for [far = 1]: sixteen entries. *)
Lemma getEdges_on_well_formed_witness :
  mesh_wf (g (this (built 1 0))) ∧
  ∃ l,
    getEdges (built 1 0) = Ok (l, built 1 0) ∧
    Forall2 (edge_points (g (this (built 1 0))))
            (edge_sequence (g (this (built 1 0)))) l ∧
    length l = 16 ∧
    Forall (λ pl, ∃ p q, pl = [p; q] ∧
                         p ∈ vertex_positions (built 1 0) ∧
                         q ∈ vertex_positions (built 1 0)) l.
Proof.
  split; [apply mesh_wf_built|].
  destruct (getEdges_on_well_formed (built 1 0) (mesh_wf_built 1 0))
    as (l & Hg & Hp & Hl & Hv).
  exists l. split; [exact Hg|]. split; [exact Hp|]. split; [|exact Hv].
  rewrite Hl. vm_compute. reflexivity.
Defined.

Lemma no_self_twin_map (gr : CLSGraph) :
  map_Forall (λ e h, he_twin h ≠ Some e) (edges gr) → no_self_twin gr.
Proof.
  intros Hm e (h & He & Ht)%twin_of_Some. exact (Hm _ _ He Ht).
Qed.

Lemma no_self_twin_square (f : Q) (c : Z) : no_self_twin (g (this (square f c))).
Proof.
  apply no_self_twin_map. apply (bool_decide_unpack _). vm_compute. exact I.
Qed.

(** The pass on the bounding square for [far = 1]: from 8 to 16. *)
Lemma subdivide_face_adds_eight_edges_witness :
  mesh_inv (g (this (square 1 0))) ∧
  no_self_twin (g (this (square 1 0))) ∧
  subdivide_face 1 (square 1 0) = Ok (tt, built 1 0) ∧
  num_edges (g (this (built 1 0))) = num_edges (g (this (square 1 0))) + 8 ∧
  no_self_twin (g (this (built 1 0))).
Proof.
  split; [apply mesh_inv_square|]. split; [apply no_self_twin_square|].
  split; [apply subdivide_face_square_computes|].
  exact (subdivide_face_adds_eight_edges 1 (square 1 0) (built 1 0)
           (mesh_inv_square 1 0) (no_self_twin_square 1 0)
           (subdivide_face_square_computes 1 0)).
Defined.

(** The sweep that the constructor runs for [far = 1]. *)
Lemma methods_keep_mesh_inv_witness :
  mesh_inv (g (this (square 1 0))) ∧
  subdivide (square 1 0) = Ok (tt, built 1 0) ∧
  mesh_inv (g (this (built 1 0))).
Proof.
  split; [apply mesh_inv_square|]. split; [apply subdivide_square_computes|].
  destruct (methods_keep_mesh_inv (square 1 0) (mesh_inv_square 1 0))
    as (_ & Hs & _).
  exact (Hs _ (subdivide_square_computes 1 0)).
Defined.

(** A mesh with the outer face only. *)
Lemma subdivide_without_bounded_faces_witness :
  bounded_faces only_outer_face = [] ∧
  subdivide only_outer_face = Ok (tt, only_outer_face).
Proof.
  split; [reflexivity|].
  apply (subdivide_without_bounded_faces only_outer_face). reflexivity.
Defined.

(** *** What a whole sweep adds *)

Lemma bounded_faces_from_0 (w : World) : bounded_faces_from 0 w = bounded_faces w.
Proof. unfold bounded_faces_from, bounded_faces. by rewrite Nat.sub_0_r. Qed.

Lemma bounded_faces_from_same (f : Face) (w w' : World) :
  same_members w w' → bounded_faces_from f w' = bounded_faces_from f w.
Proof.
  intros (Hf & Ho & _). unfold bounded_faces_from, num_faces.
  rewrite Ho. by rewrite <-(length_fmap idx), Hf, length_fmap.
Qed.

(** A quantity that every successful [subdivide_face] raises by [k], on
    worlds that satisfy an invariant it keeps, is raised by the sweep by [k]
    for every bounded face. *)
Lemma subdivide_from_measure (I : World → Prop) (μ : World → nat) (k : nat) :
  (∀ f w w', I w → subdivide_face f w = Ok (tt, w') → I w' ∧ μ w' = μ w + k) →
  ∀ fuel f w w',
    I w → subdivide_from f fuel w = Ok (tt, w') →
    I w' ∧ μ w' = μ w + k * length (bounded_faces_from f w).
Proof.
  intros Hstep fuel. induction fuel as [|fuel IH]; intros f w w' Hi H; simpl in H.
  - apply bind_Ok in H as (n & w0 & H0 & H). minv H0. rewrite with_g_id in H.
    case_bool_decide as Hlt; [discriminate H|]. minv H.
    unfold bounded_faces_from.
    replace (num_faces (g (this w')) - f) with 0 by lia. simpl. split; [done|lia].
  - apply bind_Ok in H as (n & w0 & H0 & H). minv H0. rewrite with_g_id in H.
    unfold bounded_faces_from.
    case_bool_decide as Hlt.
    2:{ minv H. replace (num_faces (g (this w')) - f) with 0 by lia.
        simpl. split; [done|lia]. }
    apply bind_Ok in H as (o & w1 & Hget & H). minv Hget.
    apply bind_Ok in H as ([] & w2 & Hface & H).
    replace (num_faces (g (this w1)) - f)
      with (S (num_faces (g (this w1)) - S f)) by lia.
    cbn [seq]. rewrite filter_cons.
    fold (bounded_faces_from (S f) w1).
    case_bool_decide as Hout.
    + destruct (Hstep _ _ _ Hi Hface) as [Hi2 Hμ2].
      destruct (IH _ _ _ Hi2 H) as [Hi' Hμ'].
      rewrite (bounded_faces_from_same _ _ _ (subdivide_face_members _ _ _ Hface))
        in Hμ'.
      rewrite decide_True by done. split; [done|]. simpl length. lia.
    + minv Hface. destruct (IH _ _ _ Hi H) as [Hi' Hμ'].
      rewrite decide_False by (intros Hne; by apply Hne). done.
Qed.

Lemma subdivide_measure (I : World → Prop) (μ : World → nat) (k : nat) :
  (∀ f w w', I w → subdivide_face f w = Ok (tt, w') → I w' ∧ μ w' = μ w + k) →
  ∀ w w',
    I w → subdivide w = Ok (tt, w') →
    I w' ∧ μ w' = μ w + k * length (bounded_faces w).
Proof.
  intros Hstep w w' Hi H. unfold subdivide in H.
  apply bind_Ok in H as (n & w0 & H0 & H). minv H0. rewrite with_g_id in H.
  rewrite <-bounded_faces_from_0. by eapply subdivide_from_measure.
Qed.

Lemma subdivide_face_num_vertices (f : Face) (w w' : World) :
  subdivide_face f w = Ok (tt, w') →
  num_vertices (g (this w')) = num_vertices (g (this w)) + 5.
Proof.
  intros (l & l' & _ & Hl & Hloop & _)%subdivide_face_Ok.
  eapply (foreach_split_edge_vertices _ _ _ _ (vertices (g (this w))) _ [])
    in Hloop as (vc' & ms & Hv & _ & Hms & _); [|reflexivity|reflexivity].
  assert (length ms = 4) as Hlen.
  { by rewrite <-(length_fmap index), Hms, length_fmap, length_seq. }
  unfold num_vertices. rewrite Hv, length_app. simpl. lia.
Qed.

(** X14: a successful [subdivide] adds five vertices for every bounded face
    of the face table and, as long as the global vertex counter does not
    overflow [int] on the way, moves the counter on by as many. *)
Theorem subdivide_adds_five_per_bounded_face (w w' : World) :
  subdivide w = Ok (tt, w') →
  num_vertices (g (this w'))
    = num_vertices (g (this w)) + 5 * length (bounded_faces w) ∧
  (counter_in_range (count w) (5 * Z.of_nat (length (bounded_faces w))) →
   count w' = (count w + 5 * Z.of_nat (length (bounded_faces w)))%Z).
Proof.
  intros H.
  assert (∀ f w1 w2, True → subdivide_face f w1 = Ok (tt, w2) →
            True ∧ num_vertices (g (this w2)) = num_vertices (g (this w1)) + 5)
    as Hstep.
  { intros f w1 w2 _ Hf. split; [done|]. exact (subdivide_face_num_vertices f w1 w2 Hf). }
  destruct (subdivide_measure (λ _, True) (λ w, num_vertices (g (this w))) 5
              Hstep w w' Logic.I H) as [_ Hn].
  split; [exact Hn|]. intros _.
  destruct (subdivide_rel vertices_appended subdivide_face_vertices_appended
              _ _ H) as (new & Hv & _ & Hc).
  unfold num_vertices in Hn. rewrite Hv, length_app in Hn. lia.
Qed.

(** The sweep that the constructor runs for [far = 1]: one bounded face. *)
Lemma subdivide_adds_five_per_bounded_face_witness :
  subdivide (square 1 0) = Ok (tt, built 1 0) ∧
  counter_in_range (count (square 1 0))
    (5 * Z.of_nat (length (bounded_faces (square 1 0)))) ∧
  num_vertices (g (this (built 1 0))) = 4 + 5 * 1 ∧
  count (built 1 0) = (4 + 5 * 1)%Z.
Proof.
  assert (counter_in_range (count (square 1 0))
            (5 * Z.of_nat (length (bounded_faces (square 1 0))))) as Hr
    by (unfold counter_in_range, INT_MIN, INT_MAX; simpl; lia).
  split; [apply subdivide_square_computes|]. split; [exact Hr|].
  destruct (subdivide_adds_five_per_bounded_face (square 1 0) (built 1 0)
              (subdivide_square_computes 1 0)) as [Hn Hc].
  split; [exact Hn|exact (Hc Hr)].
Defined.

(** X15: on a twin-symmetric, well-formed mesh without self-twins a
    successful [subdivide] adds eight live half-edges for every bounded face,
    and leaves a mesh that is again twin-symmetric, well-formed and without
    self-twins. *)
Theorem subdivide_adds_eight_edges_per_bounded_face (w w' : World) :
  mesh_inv (g (this w)) → no_self_twin (g (this w)) →
  subdivide w = Ok (tt, w') →
  num_edges (g (this w'))
    = num_edges (g (this w)) + 8 * length (bounded_faces w) ∧
  mesh_inv (g (this w')) ∧ no_self_twin (g (this w')).
Proof.
  intros Hi Hn H.
  enough (∀ f w1 w2,
            mesh_inv (g (this w1)) ∧ no_self_twin (g (this w1)) →
            subdivide_face f w1 = Ok (tt, w2) →
            (mesh_inv (g (this w2)) ∧ no_self_twin (g (this w2))) ∧
            num_edges (g (this w2)) = num_edges (g (this w1)) + 8) as Hstep.
  { destruct (subdivide_measure
                (λ w, mesh_inv (g (this w)) ∧ no_self_twin (g (this w)))
                (λ w, num_edges (g (this w))) 8
                Hstep w w' (conj Hi Hn) H) as [[Hi' Hn'] He]. done. }
  intros f w1 w2 [Hi1 Hn1] Hf.
  apply subdivide_face_Ok in Hf as (l & l' & _ & Hl & Hloop & _).
  apply foreach_split_edge_edges_grown in Hloop as (Hi2 & Hn2 & Hs);
    [|apply (mesh_inv_vertices (g (this w1))); [rewrite length_app; lia|exact Hi1]
     |exact Hn1].
  rewrite Hl in Hs. done.
Qed.

(** The sweep that the constructor runs for [far = 1]: from 8 to 16. *)
Lemma subdivide_adds_eight_edges_per_bounded_face_witness :
  mesh_inv (g (this (square 1 0))) ∧ no_self_twin (g (this (square 1 0))) ∧
  subdivide (square 1 0) = Ok (tt, built 1 0) ∧
  num_edges (g (this (built 1 0))) = 8 + 8 * 1 ∧
  mesh_inv (g (this (built 1 0))) ∧ no_self_twin (g (this (built 1 0))).
Proof.
  split; [apply mesh_inv_square|]. split; [apply no_self_twin_square|].
  split; [apply subdivide_square_computes|].
  destruct (subdivide_adds_eight_edges_per_bounded_face (square 1 0) (built 1 0)
              (mesh_inv_square 1 0) (no_self_twin_square 1 0)
              (subdivide_square_computes 1 0)) as (He & Hi & Hn).
  split; [|split; [exact Hi|exact Hn]].
  rewrite He. vm_compute. reflexivity.
Defined.
